(** * ForkAndExecProcess (libpsl-native, createprocess.cpp)

    A shallow embedding of [ForkAndExecProcess] and its helpers, and the
    properties of the process spawner checked against it.

    The function talks to the kernel (access, pipe, fork, close, dup2,
    chdir, setsid, execve, _exit), reads and writes [errno], and stores
    results through four out pointers.  It is embedded as a computation
    over an explicit [world]: the calling process' descriptor table and
    [errno], the memory behind the out pointers, a log of the system calls
    made, and a script holding the kernel's answers to the calls to come.

    The [assert(false && ...)] statements are compiled out (NDEBUG), as in
    a release build: the statements after them are the behaviour modelled. *)

From Stdlib Require Import ZArith Lia.
From stdpp Require Import base tactics option list gmap sets strings.

Local Open Scope Z_scope.

#[local] Set Warnings "-clear-no-such-hyp,-notation-for-abbreviation".

(** ** Kernel interface *)

(** Addresses of the caller's [int32_t] cells; a pointer is [option loc],
    [None] being [nullptr]. *)
Definition loc := positive.

(** The kernel's answer to one system call: [None] when the call succeeds,
    [Some e] when it fails and sets [errno] to [e] (error numbers are
    positive, as POSIX requires). *)
Definition answer := option positive.

(** What [fork] returns when it succeeds: the process followed is either
    the parent (which learns the child's id) or the child (whose own id is
    recorded for [setsid]). *)
Inductive fork_side :=
| InParent (child : positive)
| InChild (self : positive).

Inductive call :=
| Access (path : option string) (mode : Z)
| Pipe (fildes : Z * Z)          (* the array as the call leaves it *)
| Fork
| Close (fd : Z)
| Dup2 (oldfd newfd : Z)
| Chdir (path : string)
| Setsid
| Execve (path : option string) (args env : option (list string))
| ExitCall (status : Z).

(** One line of the system-call log: the call and the kernel's answer. *)
Definition event := (call * answer)%type.

Record world := World {
  errno : Z;
  fds : gset Z;                   (* descriptors open in this process *)
  mem : gmap loc Z;               (* the cells behind the out pointers *)
  pid : positive;                 (* id of the process being followed *)
  side : fork_side;               (* which side of fork is followed *)
  script : list answer;           (* answers to the calls to come; once
                                     exhausted every call succeeds *)
  trace : list event              (* calls made so far, oldest first *)
}.

(** How control leaves the function other than by [return]. *)
Inductive halt :=
| Exited (status : Z)                               (* _exit *)
| Execed (path : option string) (args env : option (list string))
                                                    (* execve succeeded *)
| NullStore.                                        (* store through nullptr *)

Inductive res (A : Type) :=
| Next (a : A)
| Halt (h : halt).
Arguments Next {A} a.
Arguments Halt {A} h.

Definition M (A : Type) : Type := world → res A * world.

#[global] Instance M_ret : MRet M := λ A a w, (Next a, w).
#[global] Instance M_bind : MBind M := λ A B f m w,
  match m w with
  | (Next a, w') => f a w'
  | (Halt h, w') => (Halt h, w')
  end.

Definition get_errno : M Z := λ w, (Next (errno w), w).

Definition set_errno (e : Z) : M unit := λ w,
  (Next tt, World e (fds w) (mem w) (pid w) (side w) (script w) (trace w)).

(** [*p = v] *)
Definition store (p : option loc) (v : Z) : M unit := λ w,
  match p with
  | None => (Halt NullStore, w)
  | Some l =>
      (Next tt, World (errno w) (fds w) (<[l:=v]> (mem w)) (pid w) (side w)
                      (script w) (trace w))
  end.

(** Every system call takes the next answer of the script, logs itself with
    it, and on failure sets [errno]. *)
Definition next_answer (w : world) : answer := hd None (script w).

Definition errno_after (a : answer) (w : world) : Z :=
  match a with Some e => Z.pos e | None => errno w end.

(** Return value of a call: -1 on failure, [ok] on success. *)
Definition ret_of (a : answer) (ok : Z) : Z :=
  match a with Some _ => -1 | None => ok end.

Definition answered (c : call) (w : world) (fds' : gset Z) (pid' : positive) : world :=
  World (errno_after (next_answer w) w) fds' (mem w) pid' (side w)
        (tl (script w)) (trace w ++ [(c, next_answer w)]).

(** The lowest descriptor number not in use. *)
Fixpoint lowest_from (n : nat) (candidate : Z) (s : gset Z) : Z :=
  match n with
  | O => candidate
  | S n' => if decide (candidate ∈ s) then lowest_from n' (candidate + 1) s
            else candidate
  end.

Definition lowest_free (s : gset Z) : Z := lowest_from (size s) 0 s.

Definition sys_access (path : option string) (mode : Z) : M Z := λ w,
  (Next (ret_of (next_answer w) 0),
   answered (Access path mode) w (fds w) (pid w)).

(** [pipe(fildes)]: on success the two lowest free descriptors are opened
    and written to the array; on failure the array is left as it was. *)
Definition sys_pipe (fildes : Z * Z) : M (Z * (Z * Z)) := λ w,
  match next_answer w with
  | Some _ => (Next (-1, fildes), answered (Pipe fildes) w (fds w) (pid w))
  | None =>
      let r := lowest_free (fds w) in
      let wr := lowest_free ({[r]} ∪ fds w) in
      (Next (0, (r, wr)), answered (Pipe (r, wr)) w ({[wr]} ∪ ({[r]} ∪ fds w)) (pid w))
  end.

Definition sys_fork : M Z := λ w,
  match next_answer w, side w with
  | Some _, _ => (Next (-1), answered Fork w (fds w) (pid w))
  | None, InParent child => (Next (Z.pos child), answered Fork w (fds w) (pid w))
  | None, InChild self => (Next 0, answered Fork w (fds w) self)
  end.

(** [close] releases the descriptor even when it reports an error. *)
Definition sys_close (fd : Z) : M Z := λ w,
  (Next (ret_of (next_answer w) 0),
   answered (Close fd) w (fds w ∖ {[fd]}) (pid w)).

Definition sys_dup2 (oldfd newfd : Z) : M Z := λ w,
  match next_answer w with
  | Some _ => (Next (-1), answered (Dup2 oldfd newfd) w (fds w) (pid w))
  | None => (Next newfd, answered (Dup2 oldfd newfd) w ({[newfd]} ∪ fds w) (pid w))
  end.

Definition sys_chdir (path : string) : M Z := λ w,
  (Next (ret_of (next_answer w) 0),
   answered (Chdir path) w (fds w) (pid w)).

(** [setsid] returns the new session id, which is the caller's process id. *)
Definition sys_setsid : M Z := λ w,
  (Next (ret_of (next_answer w) (Z.pos (pid w))),
   answered Setsid w (fds w) (pid w)).

(** [execve] returns only when it fails. *)
Definition sys_execve (path : option string) (args env : option (list string)) : M Z := λ w,
  match next_answer w with
  | Some _ => (Next (-1), answered (Execve path args env) w (fds w) (pid w))
  | None => (Halt (Execed path args env),
             answered (Execve path args env) w (fds w) (pid w))
  end.

Definition sys_exit {A} (status : Z) : M A := λ w,
  (Halt (Exited status),
   World (errno w) (fds w) (mem w) (pid w) (side w) (script w)
         (trace w ++ [(ExitCall status, None)])).

(** ** The program *)

(** The arguments of [ForkAndExecProcess].  Pointers are options; the
    [int32_t] arguments are integers. *)
Record request := Request {
  filename : option string;
  argv : option (list string);
  envp : option (list string);
  cwd : option string;
  redirectStdin : Z;
  redirectStdout : Z;
  redirectStderr : Z;
  creationFlags : Z;
  childPid : option loc;
  stdinFd : option loc;
  stdoutFd : option loc;
  stderrFd : option loc
}.

Definition CREATE_NEW_PROCESS_SESSION : Z := 1.

Inductive pipe_end := READ_END_OF_PIPE | WRITE_END_OF_PIPE.

(** [fildes[e]] *)
Definition at_end (fildes : Z * Z) (e : pipe_end) : Z :=
  match e with
  | READ_END_OF_PIPE => fildes.1
  | WRITE_END_OF_PIPE => fildes.2
  end.

Definition STDIN_FILENO : Z := 0.
Definition STDOUT_FILENO : Z := 1.
Definition STDERR_FILENO : Z := 2.

Definition is_null {A} (p : option A) : bool :=
  match p with None => true | Some _ => false end.

Definition CloseIfOpen (fd : Z) : M unit :=
  if 0 <=? fd then _ ← sys_close fd; mret tt else mret tt.

(** [flag && e] and [e1 || e2] on effectful conditions. *)
Definition and_then (flag : Z) (e : M bool) : M bool :=
  if flag =? 0 then mret false else e.

Definition or_else (e1 e2 : M bool) : M bool :=
  b ← e1; if b : bool then mret true else e2.

Section Platform.

(** The values of these macros come from the platform's headers. *)
Variables EINVAL EINTR : positive.
Variables EXIT_FAILURE X_OK : Z.

Definition CheckInterrupted (result : Z) : M bool :=
  e ← get_errno; mret ((result <? 0) && (e =? Z.pos EINTR)).

(** [while (CheckInterrupted(result = op()));] then [result].  An
    interrupted call has used up an answer of the script, so the length of
    the script bounds the number of rounds. *)
Fixpoint retry_interrupted (fuel : nat) (op : M Z) : M Z :=
  result ← op;
  again ← CheckInterrupted result;
  if again : bool then
    match fuel with
    | O => mret result
    | S n => retry_interrupted n op
    end
  else mret result.

Definition while_interrupted (op : M Z) : M Z := λ w,
  retry_interrupted (length (script w)) op w.

Definition Dup2WithInterruptedRetry (oldfd newfd : Z) : M Z :=
  while_interrupted (sys_dup2 oldfd newfd).

(** [_exit(errno != 0 ? errno : EXIT_FAILURE)] *)
Definition exit_with_errno {A} : M A :=
  e ← get_errno; sys_exit (if e =? 0 then EXIT_FAILURE else e).

(** [flag && pipe(fildes) != 0], with the array as the call leaves it. *)
Definition pipe_failed (flag : Z) (fildes : Z * Z) : M (bool * (Z * Z)) :=
  if flag =? 0 then mret (false, fildes)
  else '(r, fildes') ← sys_pipe fildes; mret (negb (r =? 0), fildes').

Definition dup2_failed (oldfd newfd : Z) : M bool :=
  r ← Dup2WithInterruptedRetry oldfd newfd; mret (r =? -1).

(** The block [if (processId == 0) { ... }].  Every path through it ends
    in [execve] or [_exit]. *)
Definition child_branch (c : request) (stdinFds stdoutFds stderrFds : Z * Z) : M Z :=
  CloseIfOpen (at_end stdinFds WRITE_END_OF_PIPE);;
  CloseIfOpen (at_end stdoutFds READ_END_OF_PIPE);;
  CloseIfOpen (at_end stderrFds READ_END_OF_PIPE);;
  failed ←
    or_else
      (and_then (redirectStdin c)
         (dup2_failed (at_end stdinFds READ_END_OF_PIPE) STDIN_FILENO))
      (or_else
         (and_then (redirectStdout c)
            (dup2_failed (at_end stdoutFds WRITE_END_OF_PIPE) STDOUT_FILENO))
         (and_then (redirectStderr c)
            (dup2_failed (at_end stderrFds WRITE_END_OF_PIPE) STDERR_FILENO)));
  (if failed : bool then exit_with_errno else mret tt);;
  CloseIfOpen (at_end stdinFds READ_END_OF_PIPE);;
  CloseIfOpen (at_end stdoutFds WRITE_END_OF_PIPE);;
  CloseIfOpen (at_end stderrFds WRITE_END_OF_PIPE);;
  match cwd c with
  | Some dir =>
      result ← while_interrupted (sys_chdir dir);
      if result =? -1 then exit_with_errno else mret tt
  | None => mret tt
  end;;
  (if negb (Z.land (creationFlags c) CREATE_NEW_PROCESS_SESSION =? 0) then
     result ← while_interrupted sys_setsid;
     if result =? -1 then exit_with_errno else mret tt
   else mret tt);;
  sys_execve (filename c) (argv c) (envp c);;
  exit_with_errno.

(** The code from the label [done] to the end of the function. *)
Definition done (c : request) (success : bool)
    (stdinFds stdoutFds stderrFds : Z * Z) : M Z :=
  priorErrno ← get_errno;
  CloseIfOpen (at_end stdinFds READ_END_OF_PIPE);;
  CloseIfOpen (at_end stdoutFds WRITE_END_OF_PIPE);;
  CloseIfOpen (at_end stderrFds WRITE_END_OF_PIPE);;
  if negb success then
    CloseIfOpen (at_end stdinFds WRITE_END_OF_PIPE);;
    CloseIfOpen (at_end stdoutFds READ_END_OF_PIPE);;
    CloseIfOpen (at_end stderrFds READ_END_OF_PIPE);;
    store (stdinFd c) (-1);;
    store (stdoutFd c) (-1);;
    store (stderrFd c) (-1);;
    store (childPid c) (-1);;
    set_errno priorErrno;;
    mret (-1)
  else mret 0.

(** The condition
    [(redirectStdin && pipe(stdinFds) != 0) ||
     (redirectStdout && pipe(stdoutFds) != 0) ||
     (redirectStderr && pipe(stderrFds) != 0)],
    with the three arrays as its evaluation leaves them. *)
Definition open_pipes_failed (c : request) (stdinFds stdoutFds stderrFds : Z * Z)
    : M (bool * ((Z * Z) * (Z * Z) * (Z * Z))) :=
  '(failed, stdinFds) ← pipe_failed (redirectStdin c) stdinFds;
  if failed : bool then mret (true, (stdinFds, stdoutFds, stderrFds)) else
  '(failed, stdoutFds) ← pipe_failed (redirectStdout c) stdoutFds;
  if failed : bool then mret (true, (stdinFds, stdoutFds, stderrFds)) else
  '(failed, stderrFds) ← pipe_failed (redirectStderr c) stderrFds;
  mret (failed, (stdinFds, stdoutFds, stderrFds)).

Definition null_argument (c : request) : bool :=
  is_null (filename c) || is_null (argv c) || is_null (envp c) ||
  is_null (stdinFd c) || is_null (stdoutFd c) || is_null (stderrFd c) ||
  is_null (childPid c).

(** [(redirectStdin & ~1) != 0 || ...] *)
Definition bad_redirect (c : request) : bool :=
  negb (Z.land (redirectStdin c) (Z.lnot 1) =? 0) ||
  negb (Z.land (redirectStdout c) (Z.lnot 1) =? 0) ||
  negb (Z.land (redirectStderr c) (Z.lnot 1) =? 0).

Definition ForkAndExecProcess (c : request) : M Z :=
  let stdinFds := (-1, -1) in
  let stdoutFds := (-1, -1) in
  let stderrFds := (-1, -1) in
  if null_argument c then
    set_errno (Z.pos EINVAL);; done c false stdinFds stdoutFds stderrFds
  else if bad_redirect c then
    set_errno (Z.pos EINVAL);; done c false stdinFds stdoutFds stderrFds
  else
  denied ← sys_access (filename c) X_OK;
  if negb (denied =? 0) then done c false stdinFds stdoutFds stderrFds else
  '(failed, (stdinFds, stdoutFds, stderrFds)) ←
    open_pipes_failed c stdinFds stdoutFds stderrFds;
  if failed : bool then done c false stdinFds stdoutFds stderrFds else
  processId ← sys_fork;
  if processId =? -1 then done c false stdinFds stdoutFds stderrFds else
  if processId =? 0 then child_branch c stdinFds stdoutFds stderrFds else
  store (childPid c) processId;;
  store (stdinFd c) (at_end stdinFds WRITE_END_OF_PIPE);;
  store (stdoutFd c) (at_end stdoutFds READ_END_OF_PIPE);;
  store (stderrFd c) (at_end stderrFds READ_END_OF_PIPE);;
  done c true stdinFds stdoutFds stderrFds.


(** ** The descriptor allocator *)

Lemma lowest_from_spec (n : nat) (candidate : Z) (s : gset Z) :
  (size (filter (λ x : Z, (candidate ≤ x)%Z) s) ≤ n)%nat →
  (lowest_from n candidate s ∉ s) ∧ (candidate ≤ lowest_from n candidate s).
Proof.
  revert candidate. induction n as [|n IH]; intros k Hsz; simpl.
  - split; [|lia]. intros Hin.
    assert (Hk : k ∈ filter (λ x, k ≤ x) s) by (apply elem_of_filter; split; [lia|done]).
    assert (Hz : size (filter (λ x, k ≤ x) s) = 0%nat) by lia.
    apply size_empty_inv in Hz. set_solver.
  - destruct (decide (k ∈ s)) as [Hin|Hout]; [|split; [done|lia]].
    destruct (IH (k + 1)) as [Hfresh Hle]; [|split; [done|lia]].
    assert (Hk : k ∈ filter (λ x, k ≤ x) s) by (apply elem_of_filter; split; [lia|done]).
    assert (Hsub : filter (λ x, k + 1 ≤ x) s ⊆ filter (λ x, k ≤ x) s ∖ {[k]}).
    { intros x [Hx1 Hx2]%elem_of_filter. apply elem_of_difference. split.
      - apply elem_of_filter. split; [lia|done].
      - apply not_elem_of_singleton. lia. }
    apply subseteq_size in Hsub.
    rewrite size_difference, size_singleton in Hsub by set_solver.
    lia.
Qed.

Lemma lowest_free_fresh (s : gset Z) : lowest_free s ∉ s.
Proof.
  apply lowest_from_spec. apply subseteq_size. intros x Hx.
  by apply elem_of_filter in Hx as [_ Hx].
Qed.

Lemma lowest_free_nonneg (s : gset Z) : 0 ≤ lowest_free s.
Proof.
  apply lowest_from_spec. apply subseteq_size. intros x Hx.
  by apply elem_of_filter in Hx as [_ Hx].
Qed.

(** ** Reading the log and the caller's cells *)

(** Descriptors passed to [close], in order. *)
Definition closes_of (evs : list event) : list Z :=
  omap (λ ev : event, match ev.1 with Close fd => Some fd | _ => None end) evs.

(** Arrays filled in by the [pipe] calls that succeeded, in order. *)
Definition pipes_of (evs : list event) : list (Z * Z) :=
  omap (λ ev : event, match ev with (Pipe p, None) => Some p | _ => None end) evs.

Definition is_close (ev : event) : Prop :=
  match ev.1 with Close _ => True | _ => False end.

(** [*p] for a caller who reads its cell back. *)
Definition load (p : option loc) (w : world) : option Z :=
  l ← p; mem w !! l.

(** The descriptors of a list that [CloseIfOpen] does close. *)
Fixpoint open_ones (l : list Z) : list Z :=
  match l with
  | [] => []
  | fd :: l' => if 0 <=? fd then fd :: open_ones l' else open_ones l'
  end.

(** What a redirection flag selects. *)
Definition wanted {A} (flag : Z) (x : A) : list A :=
  if flag =? 0 then [] else [x].

Definition handle (flag fd : Z) : Z := if flag =? 0 then -1 else fd.

Definition strict_boolean (z : Z) : Prop := z = 0 ∨ z = 1.

(** An array that holds a pipe, as opposed to the initial [{-1, -1}]. *)
Definition live (p : Z * Z) : list (Z * Z) := if 0 <=? p.1 then [p] else [].

(** Both ends of each pipe of a list. *)
Definition ends (ps : list (Z * Z)) : list Z :=
  flat_map (λ p : Z * Z, [p.1; p.2]) ps.

Definition is_pipe_call (ev : event) : Prop :=
  match ev.1 with Pipe _ => True | _ => False end.

(** The three arrays against the descriptor table: each is untouched or
    holds a pipe; the pipes held have pairwise distinct ends that were not
    open in [base]; [cur] is [base] with those ends added. *)
Definition pipes_state (base : gset Z) (pin pout perr : Z * Z) (cur : gset Z) : Prop :=
  Forall (λ p : Z * Z, p = (-1, -1) ∨ (0 ≤ p.1 ∧ 0 ≤ p.2)) [pin; pout; perr] ∧
  NoDup (ends (live pin ++ live pout ++ live perr)) ∧
  Forall (λ fd, fd ∉ base) (ends (live pin ++ live pout ++ live perr)) ∧
  cur = base ∪ list_to_set (ends (live pin ++ live pout ++ live perr)).

Definition outputs_writable (c : request) : Prop :=
  is_Some (childPid c) ∧ is_Some (stdinFd c) ∧
  is_Some (stdoutFd c) ∧ is_Some (stderrFd c).

(** ** Stepping through computations *)

Lemma bind_next {A B} (m : M A) (f : A → M B) w a w' :
  m w = (Next a, w') → (m ≫= f) w = f a w'.
Proof. intros H. unfold mbind, M_bind. by rewrite H. Qed.

Lemma bind_halt {A B} (m : M A) (f : A → M B) w h w' :
  m w = (Halt h, w') → (m ≫= f) w = (Halt h, w').
Proof. intros H. unfold mbind, M_bind. by rewrite H. Qed.

Lemma closes_of_app evs1 evs2 :
  closes_of (evs1 ++ evs2) = closes_of evs1 ++ closes_of evs2.
Proof. apply omap_app. Qed.

Lemma pipes_of_app evs1 evs2 :
  pipes_of (evs1 ++ evs2) = pipes_of evs1 ++ pipes_of evs2.
Proof. apply omap_app. Qed.

Lemma open_ones_app l1 l2 : open_ones (l1 ++ l2) = open_ones l1 ++ open_ones l2.
Proof.
  induction l1 as [|x l1 IH]; simpl; [done|].
  destruct (0 <=? x); simpl; by rewrite IH.
Qed.

Lemma open_ones_nonneg l : Forall (λ fd, 0 ≤ fd) (open_ones l).
Proof.
  induction l as [|x l IH]; simpl; [constructor|].
  destruct (0 <=? x) eqn:Hx; [constructor; [lia|done]|done].
Qed.

(** ** Closing descriptors *)

(** [closed_by l w w']: from [w] to [w'] the descriptors of [l] that are
    open ones were closed, in order, by [close] calls and nothing else
    was done ([errno] apart, which a failing [close] sets). *)
Definition closed_by (l : list Z) (w w' : world) : Prop :=
  fds w' = fds w ∖ list_to_set (open_ones l) ∧
  mem w' = mem w ∧ side w' = side w ∧ pid w' = pid w ∧
  ∃ evs, trace w' = trace w ++ evs ∧ Forall is_close evs ∧
         closes_of evs = open_ones l.

Lemma closed_by_nil w : closed_by [] w w.
Proof.
  repeat split; simpl; [set_solver|].
  exists []. by rewrite app_nil_r.
Qed.

Lemma closed_by_app l1 l2 w w1 w2 :
  closed_by l1 w w1 → closed_by l2 w1 w2 → closed_by (l1 ++ l2) w w2.
Proof.
  intros (Hf1 & Hm1 & Hs1 & Hp1 & evs1 & Ht1 & Hc1 & Ho1)
         (Hf2 & Hm2 & Hs2 & Hp2 & evs2 & Ht2 & Hc2 & Ho2).
  repeat split; try congruence.
  - rewrite Hf2, Hf1, open_ones_app, list_to_set_app_L. set_solver.
  - exists (evs1 ++ evs2). split; [|split].
    + by rewrite Ht2, Ht1, app_assoc.
    + by apply Forall_app.
    + by rewrite closes_of_app, open_ones_app, Ho1, Ho2.
Qed.

Lemma CloseIfOpen_closed_by fd w :
  ∃ w', CloseIfOpen fd w = (Next tt, w') ∧ closed_by [fd] w w'.
Proof.
  unfold CloseIfOpen, closed_by. simpl. destruct (0 <=? fd) eqn:Hfd.
  - eexists. split; [reflexivity|]. simpl.
    repeat split; [set_solver|].
    eexists. split; [reflexivity|]. split; [|done].
    by repeat constructor.
  - eexists. split; [reflexivity|]. simpl.
    repeat split; [set_solver|]. exists []. by rewrite app_nil_r.
Qed.

(** [CloseIfOpen] does nothing at all on the sentinel. *)
Lemma CloseIfOpen_sentinel w : CloseIfOpen (-1) w = (Next tt, w).
Proof. reflexivity. Qed.

(** ** The code after [done:] *)

Ltac close_step :=
  match goal with
  | |- context [@mbind _ _ _ _ _ (CloseIfOpen ?fd) ?w] =>
      let w' := fresh "w" in
      let Heq := fresh "Heq" in
      let Hcl := fresh "Hcl" in
      destruct (CloseIfOpen_closed_by fd w) as (w' & Heq & Hcl);
      rewrite (bind_next _ _ _ _ _ Heq); clear Heq; cbv beta
  end.

Ltac prim_step := erewrite bind_next by reflexivity; cbv beta.

Lemma done_success c pin pout perr w :
  ∃ w', done c true pin pout perr w = (Next 0, w') ∧
        closed_by [pin.1; pout.2; perr.2] w w'.
Proof.
  unfold done. prim_step. simpl at_end.
  do 3 close_step. cbn [negb]. eexists. split; [reflexivity|].
  apply (closed_by_app [_] [_; _] _ _ _ Hcl).
  by apply (closed_by_app [_] [_] _ _ _ Hcl0).
Qed.

Lemma done_failing_closes c pin pout perr w :
  ∃ w1, closed_by [pin.1; pout.2; perr.2; pin.2; pout.1; perr.1] w w1 ∧
        done c false pin pout perr w =
          (store (stdinFd c) (-1);; store (stdoutFd c) (-1);;
           store (stderrFd c) (-1);; store (childPid c) (-1);;
           set_errno (errno w);; mret (-1)) w1.
Proof.
  unfold done. prim_step. simpl at_end.
  do 3 close_step. cbn [negb]. do 3 close_step.
  eexists. split; [|reflexivity].
  apply (closed_by_app [_] [_; _; _; _; _] _ _ _ Hcl).
  apply (closed_by_app [_] [_; _; _; _] _ _ _ Hcl0).
  apply (closed_by_app [_] [_; _; _] _ _ _ Hcl1).
  apply (closed_by_app [_] [_; _] _ _ _ Hcl2).
  by apply (closed_by_app [_] [_] _ _ _ Hcl3).
Qed.

(** On failure with writable out cells: everything is closed, the cells
    hold the sentinel, [errno] is what it was at [done:]. *)
Lemma done_failure c pin pout perr w :
  outputs_writable c →
  ∃ w', done c false pin pout perr w = (Next (-1), w') ∧
        errno w' = errno w ∧
        fds w' = fds w ∖ list_to_set
                   (open_ones [pin.1; pout.2; perr.2; pin.2; pout.1; perr.1]) ∧
        side w' = side w ∧
        (∃ evs, trace w' = trace w ++ evs ∧ Forall is_close evs ∧
                closes_of evs =
                  open_ones [pin.1; pout.2; perr.2; pin.2; pout.1; perr.1]) ∧
        load (childPid c) w' = Some (-1) ∧ load (stdinFd c) w' = Some (-1) ∧
        load (stdoutFd c) w' = Some (-1) ∧ load (stderrFd c) w' = Some (-1).
Proof.
  intros ([lp Hp] & [li Hi] & [lo Ho] & [le He]).
  destruct (done_failing_closes c pin pout perr w)
    as (w1 & (Hf & Hm & Hs & _ & Hev) & ->).
  rewrite Hp, Hi, Ho, He. do 5 prim_step. eexists. split; [reflexivity|].
  simpl. repeat split; try done; unfold load; simpl;
    rewrite !lookup_insert; repeat case_decide; done.
Qed.

(** On failure with a null out pointer the stores after the cleanup go
    through [nullptr]: the function does not return. *)
Lemma done_failure_null c pin pout perr w :
  childPid c = None ∨ stdinFd c = None ∨ stdoutFd c = None ∨ stderrFd c = None →
  ∃ w' w1, done c false pin pout perr w = (Halt NullStore, w') ∧
           closed_by [pin.1; pout.2; perr.2; pin.2; pout.1; perr.1] w w1 ∧
           fds w' = fds w1 ∧ trace w' = trace w1.
Proof.
  intros Hnull.
  destruct (done_failing_closes c pin pout perr w) as (w1 & Hcl & ->).
  destruct (stdinFd c) as [li|], (stdoutFd c) as [lo|],
           (stderrFd c) as [le|], (childPid c) as [lp|];
    try (exfalso; naive_solver);
    eexists _, w1; (split; [reflexivity|]); done.
Qed.

(** ** Opening the pipes *)

Lemma sys_pipe_opened w :
  next_answer w = None →
  ∃ p w', sys_pipe (-1, -1) w = (Next (0, p), w') ∧
          trace w' = trace w ++ [(Pipe p, None)] ∧
          mem w' = mem w ∧ side w' = side w ∧ pid w' = pid w ∧
          errno w' = errno w ∧ script w' = tl (script w) ∧
          0 ≤ p.1 ∧ 0 ≤ p.2 ∧ p.1 ≠ p.2 ∧ (p.1 ∉ fds w) ∧ (p.2 ∉ fds w) ∧
          fds w' = {[p.2]} ∪ ({[p.1]} ∪ fds w).
Proof.
  intros Ha. unfold sys_pipe, answered. rewrite Ha. simpl.
  eexists (_, _), _. split; [reflexivity|]. simpl.
  pose proof (lowest_free_fresh (fds w)) as H1.
  pose proof (lowest_free_fresh ({[lowest_free (fds w)]} ∪ fds w)) as H2.
  pose proof (lowest_free_nonneg (fds w)).
  pose proof (lowest_free_nonneg ({[lowest_free (fds w)]} ∪ fds w)).
  repeat split; try done; set_solver.
Qed.

(** The three ways [flag && pipe(fildes) != 0] can go. *)
Inductive pipe_attempt (flag : Z) (w : world) :
    bool → Z * Z → world → list event → Prop :=
| not_requested :
    flag = 0 → pipe_attempt flag w false (-1, -1) w []
| pipe_opened p w' :
    flag ≠ 0 → next_answer w = None →
    trace w' = trace w ++ [(Pipe p, None)] →
    mem w' = mem w → side w' = side w → pid w' = pid w →
    errno w' = errno w → script w' = tl (script w) →
    0 ≤ p.1 → 0 ≤ p.2 → p.1 ≠ p.2 → p.1 ∉ fds w → p.2 ∉ fds w →
    fds w' = {[p.2]} ∪ ({[p.1]} ∪ fds w) →
    pipe_attempt flag w false p w' [(Pipe p, None)]
| pipe_refused e w' :
    flag ≠ 0 → next_answer w = Some e →
    trace w' = trace w ++ [(Pipe (-1, -1), Some e)] →
    mem w' = mem w → side w' = side w → pid w' = pid w →
    errno w' = Z.pos e → script w' = tl (script w) → fds w' = fds w →
    pipe_attempt flag w true (-1, -1) w' [(Pipe (-1, -1), Some e)].

Lemma pipe_failed_attempt flag w :
  ∃ failed p w' evs,
    pipe_failed flag (-1, -1) w = (Next (failed, p), w') ∧
    pipe_attempt flag w failed p w' evs.
Proof.
  unfold pipe_failed. destruct (flag =? 0) eqn:Hflag.
  - apply Z.eqb_eq in Hflag. eexists _, _, _, _. split; [reflexivity|].
    by constructor.
  - apply Z.eqb_neq in Hflag. destruct (next_answer w) as [e|] eqn:Ha.
    + exists true, (-1, -1). eexists _, _. split.
      * unfold mbind, M_bind, sys_pipe. rewrite Ha. reflexivity.
      * apply pipe_refused; try done; unfold answered; simpl; by rewrite ?Ha.
    + destruct (sys_pipe_opened w Ha) as (p & w' & Heq & H).
      exists false, p, w'. eexists. split.
      * unfold mbind, M_bind. rewrite Heq. reflexivity.
      * apply pipe_opened; try done; naive_solver.
Qed.

Lemma live_unset : live (-1, -1) = [].
Proof. reflexivity. Qed.

Lemma live_opened (p : Z * Z) : 0 ≤ p.1 → live p = [p].
Proof. intros H. unfold live. by rewrite (proj2 (Z.leb_le 0 p.1) H). Qed.

Lemma ends_app ps1 ps2 : ends (ps1 ++ ps2) = ends ps1 ++ ends ps2.
Proof. unfold ends. by rewrite flat_map_app. Qed.

(** [opened_so_far w0 w ps]: since [w0] the pipes [ps] were opened, in
    order, and nothing else happened. *)
Definition opened_so_far (w0 w : world) (ps : list (Z * Z)) : Prop :=
  trace w = trace w0 ++ map (λ p, (Pipe p, None)) ps ∧
  mem w = mem w0 ∧ side w = side w0 ∧ pid w = pid w0 ∧ errno w = errno w0 ∧
  fds w = fds w0 ∪ list_to_set (ends ps) ∧
  NoDup (ends ps) ∧
  Forall (λ fd, 0 ≤ fd ∧ fd ∉ fds w0) (ends ps).

Lemma opened_so_far_refl w : opened_so_far w w [].
Proof.
  unfold opened_so_far. simpl. rewrite app_nil_r.
  repeat split; [set_solver|constructor|constructor].
Qed.

Lemma opened_so_far_step w0 w ps flag p w' evs :
  opened_so_far w0 w ps →
  pipe_attempt flag w false p w' evs →
  opened_so_far w0 w' (ps ++ live p) ∧
  live p = wanted flag p ∧
  evs = map (λ p, (Pipe p, None)) (live p) ∧
  (p = (-1, -1) ∨ (0 ≤ p.1 ∧ 0 ≤ p.2)).
Proof.
  intros (Ht & Hm & Hs & Hp & He & Hf & Hnd & Hall) Hatt.
  inversion Hatt as [Hflag| | ]; subst.
  - rewrite live_unset, app_nil_r. unfold wanted. simpl.
    repeat split; auto.
  - rewrite live_opened by done. unfold wanted.
    rewrite (proj2 (Z.eqb_neq flag 0)) by done.
    assert (Hfresh1 : p.1 ∉ ends ps) by (rewrite Hf in *; set_solver).
    assert (Hfresh2 : p.2 ∉ ends ps) by (rewrite Hf in *; set_solver).
    repeat split; auto; try congruence.
    + rewrite H1, Ht, map_app, <- app_assoc. done.
    + rewrite H12, Hf, ends_app, list_to_set_app_L. simpl. clear. set_solver.
    + rewrite ends_app. simpl. apply NoDup_app. split; [done|]. split.
      * intros x Hx [->| [->|[]%elem_of_nil]%elem_of_cons]%elem_of_cons; done.
      * apply NoDup_cons. split; [set_solver|]. apply NoDup_singleton.
    + rewrite ends_app. apply Forall_app. split; [done|]. simpl.
      rewrite Hf in *. repeat constructor; try done; set_solver.
Qed.

Lemma pipe_attempt_refused flag w p w' evs :
  pipe_attempt flag w true p w' evs →
  p = (-1, -1) ∧
  ∃ e, evs = [(Pipe (-1, -1), Some e)] ∧ errno w' = Z.pos e ∧
       trace w' = trace w ++ evs ∧ fds w' = fds w ∧
       mem w' = mem w ∧ side w' = side w ∧ pid w' = pid w.
Proof. inversion 1; subst. split; [done|]. eauto 10. Qed.

Lemma opened_so_far_state w0 w pin pout perr :
  opened_so_far w0 w (live pin ++ live pout ++ live perr) →
  Forall (λ p : Z * Z, p = (-1, -1) ∨ (0 ≤ p.1 ∧ 0 ≤ p.2)) [pin; pout; perr] →
  pipes_state (fds w0) pin pout perr (fds w).
Proof.
  intros (Ht & Hm & Hs & Hp & He & Hf & Hnd & Hall) Harr.
  repeat split; try done.
  eapply Forall_impl; [exact Hall|]. by intros x [_ Hx].
Qed.

Lemma pipes_of_opened ps : pipes_of (map (λ p, (Pipe p, None)) ps) = ps.
Proof. induction ps as [|p ps IH]; simpl; [done|]. by rewrite IH. Qed.

Lemma opened_then_refused w0 w ps flag p w' evs :
  opened_so_far w0 w ps →
  pipe_attempt flag w true p w' evs →
  p = (-1, -1) ∧
  ∃ e, errno w' = Z.pos e ∧
       trace w' = trace w0 ++ map (λ p, (Pipe p, None)) ps ++
                  [(Pipe (-1, -1), Some e)] ∧
       mem w' = mem w0 ∧ side w' = side w0 ∧ pid w' = pid w0 ∧
       fds w' = fds w0 ∪ list_to_set (ends ps) ∧
       NoDup (ends ps) ∧ Forall (λ fd, fd ∉ fds w0) (ends ps).
Proof.
  intros (Ht & Hm & Hs & Hp & He & Hf & Hnd & Hall) Hatt.
  apply pipe_attempt_refused in Hatt
    as (-> & e & -> & He' & Ht' & Hf' & Hm' & Hs' & Hp').
  split; [done|]. exists e. repeat split; try congruence.
  - by rewrite Ht', Ht, <- app_assoc.
  - eapply Forall_impl; [exact Hall|]. by intros x [_ Hx].
Qed.

(** What evaluating the condition achieves, from arrays not yet used. *)
Lemma open_pipes_spec c w :
  ∃ failed pin pout perr w' evs,
    open_pipes_failed c (-1, -1) (-1, -1) (-1, -1) w =
      (Next (failed, (pin, pout, perr)), w') ∧
    trace w' = trace w ++ evs ∧
    mem w' = mem w ∧ side w' = side w ∧ pid w' = pid w ∧
    pipes_state (fds w) pin pout perr (fds w') ∧
    pipes_of evs = live pin ++ live pout ++ live perr ∧
    (failed = false →
       errno w' = errno w ∧
       evs = map (λ p, (Pipe p, None)) (pipes_of evs) ∧
       live pin = wanted (redirectStdin c) pin ∧
       live pout = wanted (redirectStdout c) pout ∧
       live perr = wanted (redirectStderr c) perr) ∧
    (failed = true →
       ∃ e, errno w' = Z.pos e ∧
            evs = map (λ p, (Pipe p, None)) (pipes_of evs) ++
                  [(Pipe (-1, -1), Some e)]).
Proof.
  unfold open_pipes_failed.
  pose proof (opened_so_far_refl w) as H0.
  destruct (pipe_failed_attempt (redirectStdin c) w)
    as (b1 & p1 & w1 & evs1 & Heq1 & H1).
  rewrite (bind_next _ _ _ _ _ Heq1); clear Heq1. cbv beta iota.
  destruct b1.
  { destruct (opened_then_refused _ _ _ _ _ _ _ H0 H1)
      as (-> & e & He & Ht & Hm & Hs & Hp & Hf & Hnd & Hall).
    eexists true, _, _, _, w1, _. split; [reflexivity|].
    split; [exact Ht|]. rewrite pipes_of_app, pipes_of_opened.
    unfold pipes_state. rewrite !live_unset. simpl.
    repeat split; try done;
      try (repeat first [apply Forall_nil_2 | apply Forall_cons_2]; auto; fail);
      eauto. }
  destruct (opened_so_far_step _ _ _ _ _ _ _ H0 H1) as (H1' & Hw1 & -> & Ha1).
  simpl in H1'. clear H0 H1.
  destruct (pipe_failed_attempt (redirectStdout c) w1)
    as (b2 & p2 & w2 & evs2 & Heq2 & H2).
  rewrite (bind_next _ _ _ _ _ Heq2); clear Heq2. cbv beta iota.
  destruct b2.
  { destruct (opened_then_refused _ _ _ _ _ _ _ H1' H2)
      as (-> & e & He & Ht & Hm & Hs & Hp & Hf & Hnd & Hall).
    eexists true, _, _, _, w2, _. split; [reflexivity|].
    split; [exact Ht|]. rewrite pipes_of_app, pipes_of_opened.
    unfold pipes_state. rewrite !live_unset, ?app_nil_r. simpl.
    rewrite ?app_nil_r.
    repeat split; try done;
      try (repeat first [apply Forall_nil_2 | apply Forall_cons_2]; auto; fail);
      eauto. }
  destruct (opened_so_far_step _ _ _ _ _ _ _ H1' H2) as (H2' & Hw2 & -> & Ha2).
  clear H1' H2.
  destruct (pipe_failed_attempt (redirectStderr c) w2)
    as (b3 & p3 & w3 & evs3 & Heq3 & H3).
  rewrite (bind_next _ _ _ _ _ Heq3); clear Heq3. cbv beta iota.
  destruct b3.
  { destruct (opened_then_refused _ _ _ _ _ _ _ H2' H3)
      as (-> & e & He & Ht & Hm & Hs & Hp & Hf & Hnd & Hall).
    eexists true, _, _, _, w3, _. split; [reflexivity|].
    split; [exact Ht|]. rewrite pipes_of_app, pipes_of_opened.
    unfold pipes_state. rewrite !live_unset, ?app_nil_r. simpl.
    rewrite ?app_nil_r.
    repeat split; try done;
      try (repeat first [apply Forall_nil_2 | apply Forall_cons_2]; auto; fail);
      eauto. }
  destruct (opened_so_far_step _ _ _ _ _ _ _ H2' H3) as (H3' & Hw3 & -> & Ha3).
  clear H2' H3. rewrite <- app_assoc in H3'.
  pose proof (opened_so_far_state _ _ _ _ _ H3'
                (Forall_cons_2 _ _ _ Ha1 (Forall_cons_2 _ _ _ Ha2
                   (Forall_cons_2 _ _ _ Ha3 (Forall_nil_2 _))))) as Hst.
  destruct H3' as (Ht & Hm & Hs & Hp & He & Hf & Hnd & Hall).
  eexists false, _, _, _, w3, _. split; [reflexivity|].
  split; [exact Ht|]. rewrite pipes_of_opened.
  repeat (split; [done|]). done.
Qed.

(** ** What the arrays' state gives the two release points *)

Lemma open_ones_opened (fd : Z) l : 0 ≤ fd → open_ones (fd :: l) = fd :: open_ones l.
Proof. intros H. simpl. by rewrite (proj2 (Z.leb_le 0 fd) H). Qed.

Ltac array_cases H :=
  let Hok := fresh "Hok" in
  destruct H as (Hok & H);
  rewrite !Forall_cons in Hok;
  destruct Hok as ([->|[? ?]] & [->|[? ?]] & [->|[? ?]] & _);
  rewrite ?live_unset, ?live_opened in * by done;
  cbn [ends flat_map app fst snd] in *;
  cbn [open_ones Z.leb Z.compare fst snd];
  repeat match goal with
         | Hx : 0 ≤ ?x |- context [0 <=? ?x] =>
             rewrite (proj2 (Z.leb_le 0 x) Hx)
         end;
  cbn [app].

(** The ends the parent gives away followed by the ends it keeps are the
    ends of the pipes held, in another order. *)
Lemma sides_ends base pin pout perr cur :
  pipes_state base pin pout perr cur →
  open_ones [pin.1; pout.2; perr.2] ++ open_ones [pin.2; pout.1; perr.1] ≡ₚ
    ends (live pin ++ live pout ++ live perr).
Proof. intros H. array_cases H; solve_Permutation. Qed.

(** On the failure path the six [CloseIfOpen] calls close every end that
    was opened, each once, and leave the table as it was. *)
Lemma pipes_state_cleanup base pin pout perr cur :
  pipes_state base pin pout perr cur →
  NoDup (open_ones [pin.1; pout.2; perr.2; pin.2; pout.1; perr.1]) ∧
  open_ones [pin.1; pout.2; perr.2; pin.2; pout.1; perr.1] ≡ₚ
    ends (live pin ++ live pout ++ live perr) ∧
  cur ∖ list_to_set (open_ones [pin.1; pout.2; perr.2; pin.2; pout.1; perr.1])
    = base.
Proof.
  intros H. pose proof (sides_ends _ _ _ _ _ H) as Hperm.
  rewrite <- (open_ones_app [_; _; _] [_; _; _]) in Hperm. simpl app in Hperm.
  destruct H as (_ & Hnd & Hfresh & ->).
  split; [by rewrite Hperm|]. split; [done|].
  rewrite Forall_forall in Hfresh.
  apply set_eq. intros x. rewrite elem_of_difference, elem_of_union,
    !elem_of_list_to_set, Hperm. naive_solver.
Qed.

(** On the success path the three [CloseIfOpen] calls close the ends given
    to the child and leave the table with the ends the parent keeps. *)
Lemma pipes_state_handover base pin pout perr cur :
  pipes_state base pin pout perr cur →
  NoDup (open_ones [pin.1; pout.2; perr.2] ++ open_ones [pin.2; pout.1; perr.1]) ∧
  Forall (λ fd, fd ∉ base) (open_ones [pin.2; pout.1; perr.1]) ∧
  cur ∖ list_to_set (open_ones [pin.1; pout.2; perr.2])
    = base ∪ list_to_set (open_ones [pin.2; pout.1; perr.1]).
Proof.
  intros H. pose proof (sides_ends _ _ _ _ _ H) as Hperm.
  destruct H as (_ & Hnd & Hfresh & ->).
  rewrite <- Hperm in Hnd, Hfresh |- *.
  split; [done|]. apply Forall_app in Hfresh as [Hf1 Hf2]. split; [done|].
  apply NoDup_app in Hnd as (_ & Hdisj & _).
  rewrite Forall_forall in Hf1. rewrite Forall_forall in Hf2.
  apply set_eq. intros x. rewrite elem_of_difference, !elem_of_union,
    !elem_of_list_to_set, elem_of_app. naive_solver.
Qed.

(** ** The child's steps as the specification orders them *)

(** The attempts of a call that a signal interrupted: each is logged,
    sets [errno] to [EINTR] and uses up an answer. *)
Fixpoint skip_interrupted (c : call) (s : list answer) (w : world) : world :=
  match s with
  | Some e :: s' =>
      if (e =? EINTR)%positive then
        skip_interrupted c s'
          (World (Z.pos EINTR) (fds w) (mem w) (pid w) (side w) s'
                 (trace w ++ [(c, Some EINTR)]))
      else w
  | _ => w
  end.

(** A call retried transparently on interruption: the answer it ends
    with; [eff] is what success does to the descriptor table. *)
Definition attempt (c : call) (eff : gset Z → gset Z) : M answer := λ w,
  let w1 := skip_interrupted c (script w) w in
  (Next (next_answer w1),
   answered c w1
     (match next_answer w1 with None => eff (fds w1) | Some _ => fds w1 end)
     (pid w1)).

(** A failed step ends the child at once, the system error being its exit
    status. *)
Definition or_abort (a : answer) : M unit :=
  match a with
  | Some e => sys_exit (Z.pos e)
  | None => mret tt
  end.

Inductive step :=
| CloseEnd (fd : Z)
| Redirect (oldfd newfd : Z)
| ChangeDir (dir : string)
| NewSession
| ReplaceImage (path : option string) (args env : option (list string)).

Definition perform (s : step) : M unit :=
  match s with
  | CloseEnd fd => _ ← sys_close fd; mret tt
  | Redirect oldfd newfd =>
      a ← attempt (Dup2 oldfd newfd) (λ t, {[newfd]} ∪ t); or_abort a
  | ChangeDir dir => a ← attempt (Chdir dir) id; or_abort a
  | NewSession => a ← attempt Setsid id; or_abort a
  | ReplaceImage path args env => λ w,
      match next_answer w with
      | None => (Halt (Execed path args env),
                 answered (Execve path args env) w (fds w) (pid w))
      | Some e => sys_exit (Z.pos e)
                    (answered (Execve path args env) w (fds w) (pid w))
      end
  end.

Fixpoint run_steps (steps : list step) : M unit :=
  match steps with
  | [] => mret tt
  | s :: rest => perform s;; run_steps rest
  end.

(** The six stages of the child, in the specification's order. *)
Definition child_steps (c : request) (pin pout perr : Z * Z) : list step :=
  (* 1: close the parent-side ends *)
  map CloseEnd (wanted (redirectStdin c) pin.2 ++
                wanted (redirectStdout c) pout.1 ++
                wanted (redirectStderr c) perr.1) ++
  (* 2: put the child-side ends on the standard streams *)
  (wanted (redirectStdin c) (Redirect pin.1 STDIN_FILENO) ++
   wanted (redirectStdout c) (Redirect pout.2 STDOUT_FILENO) ++
   wanted (redirectStderr c) (Redirect perr.2 STDERR_FILENO)) ++
  (* 3: close the superseded descriptors *)
  map CloseEnd (wanted (redirectStdin c) pin.1 ++
                wanted (redirectStdout c) pout.2 ++
                wanted (redirectStderr c) perr.2) ++
  (* 4: working directory *)
  match cwd c with Some dir => [ChangeDir dir] | None => [] end ++
  (* 5: session *)
  (if Z.testbit (creationFlags c) 0 then [NewSession] else []) ++
  (* 6: program image *)
  [ReplaceImage (filename c) (argv c) (envp c)].

(** Calls that answer -1 on failure and a non-negative value on success,
    and on success change the descriptor table by [eff]. *)
Definition simple_call (c : call) (okv : world → Z) (eff : gset Z → gset Z) : M Z :=
  λ w,
  (Next (ret_of (next_answer w) (okv w)),
   answered c w
     (match next_answer w with None => eff (fds w) | Some _ => fds w end)
     (pid w)).

(** Computations that agree on every world. *)
Definition meq {A} (m1 m2 : M A) : Prop := ∀ w, m1 w = m2 w.

Lemma retry_interrupted_ext n op op' w :
  meq op op' → retry_interrupted n op w = retry_interrupted n op' w.
Proof.
  intros Hop. revert w. induction n as [|n IH]; intros w; simpl;
    unfold mbind, M_bind; rewrite Hop; destruct (op' w) as [[r|h] w1]; try done.
  destruct (CheckInterrupted r w1) as [[[]|] ?]; try done.
Qed.

Lemma skip_interrupted_pid c s w : pid (skip_interrupted c s w) = pid w.
Proof.
  revert w. induction s as [|[e|] s IH]; intros w; simpl; try done.
  destruct (e =? EINTR)%positive; [|done]. by rewrite IH.
Qed.

Ltac not_negative Hok :=
  match goal with
  | |- context [?okv ?x <? 0] =>
      rewrite (proj2 (Z.ltb_ge (okv x) 0) (Hok x)); done
  end.

(** The loop [while (CheckInterrupted(result = op()));] comes to the call
    made once after the interrupted attempts. *)
Lemma retry_interrupted_simple c okv eff n w :
  (∀ w, 0 ≤ okv w) →
  (length (script w) ≤ n)%nat →
  retry_interrupted n (simple_call c okv eff) w =
    simple_call c okv eff (skip_interrupted c (script w) w).
Proof.
  intros Hok. revert w. induction n as [|n IH]; intros w Hlen.
  - destruct w as [e f m p sd [|a s] t]; simpl in Hlen; [|lia].
    simpl. unfold mbind, M_bind, simple_call, CheckInterrupted, get_errno,
      next_answer. simpl.
    not_negative Hok.
  - destruct w as [e f m p sd [|[a|] s] t]; simpl in Hlen.
    + simpl. unfold mbind, M_bind, simple_call, CheckInterrupted, get_errno,
        next_answer. simpl.
      not_negative Hok.
    + cbn [skip_interrupted script]. destruct (a =? EINTR)%positive eqn:Ha.
      * apply Pos.eqb_eq in Ha as ->.
        etrans; [|apply (IH (World (Z.pos EINTR) f m p sd s
                                   (t ++ [(c, Some EINTR)]))); simpl; lia].
        cbn [retry_interrupted]. unfold mbind, M_bind, simple_call at 1,
          CheckInterrupted, get_errno, next_answer, answered. simpl.
        rewrite Pos.eqb_refl. done.
      * cbn [retry_interrupted]. unfold mbind, M_bind, simple_call,
          CheckInterrupted, get_errno, next_answer, answered. simpl.
        rewrite Ha. done.
    + simpl. unfold mbind, M_bind, simple_call, CheckInterrupted, get_errno,
        next_answer. simpl.
      not_negative Hok.
Qed.

Lemma while_interrupted_simple c okv eff w :
  (∀ w, 0 ≤ okv w) →
  while_interrupted (simple_call c okv eff) w =
    simple_call c okv eff (skip_interrupted c (script w) w).
Proof. intros Hok. by apply retry_interrupted_simple. Qed.

(** ** Agreement of computations *)

Lemma meq_refl {A} (m : M A) : meq m m.
Proof. by intros w. Qed.

Lemma meq_sym {A} (m1 m2 : M A) : meq m1 m2 → meq m2 m1.
Proof. by intros H w. Qed.

Lemma meq_trans {A} (m1 m2 m3 : M A) : meq m1 m2 → meq m2 m3 → meq m1 m3.
Proof. intros H1 H2 w. by rewrite H1. Qed.

Lemma bind_meq {A B} (m1 m2 : M A) (f1 f2 : A → M B) :
  meq m1 m2 → (∀ a, meq (f1 a) (f2 a)) → meq (m1 ≫= f1) (m2 ≫= f2).
Proof.
  intros Hm Hf w. unfold mbind, M_bind. rewrite Hm.
  destruct (m2 w) as [[a|h] w1]; [apply Hf|done].
Qed.

Lemma bind_assoc_meq {A B C} (m : M A) (f : A → M B) (g : B → M C) :
  meq ((m ≫= f) ≫= g) (m ≫= λ a, f a ≫= g).
Proof. intros w. unfold mbind, M_bind. by destruct (m w) as [[a|h] w1]. Qed.

Lemma exit_bind_meq {A B} (f : A → M B) :
  meq (exit_with_errno ≫= f) exit_with_errno.
Proof. by intros w. Qed.

Lemma run_steps_app {B} l1 l2 (k : unit → M B) :
  meq (run_steps (l1 ++ l2) ≫= k) (run_steps l1 ≫= λ _, run_steps l2 ≫= k).
Proof.
  induction l1 as [|s l1 IH]; simpl.
  - intros w. reflexivity.
  - eapply meq_trans; [apply bind_assoc_meq|].
    eapply meq_trans; [|apply meq_sym, bind_assoc_meq].
    apply bind_meq; [apply meq_refl|]. intros _. apply IH.
Qed.

(** ** The child's code against its steps *)

Lemma sys_dup2_simple oldfd newfd :
  meq (sys_dup2 oldfd newfd)
      (simple_call (Dup2 oldfd newfd) (λ _, newfd) (λ t, {[newfd]} ∪ t)).
Proof.
  intros w. unfold sys_dup2, simple_call. by destruct (next_answer w).
Qed.

Lemma sys_chdir_simple dir :
  meq (sys_chdir dir) (simple_call (Chdir dir) (λ _, 0) id).
Proof.
  intros w. unfold sys_chdir, simple_call. by destruct (next_answer w).
Qed.

Lemma sys_setsid_simple :
  meq sys_setsid (simple_call Setsid (λ w, Z.pos (pid w)) id).
Proof.
  intros w. unfold sys_setsid, simple_call. by destruct (next_answer w).
Qed.

(** A retried call followed by the test of its result is the step of the
    specification: interrupted attempts are passed over, a failure ends
    the child with the error as status, a success lets it go on. *)
Lemma retried_or_exit op c okv eff :
  meq op (simple_call c okv eff) →
  (∀ w, 0 ≤ okv w) →
  meq (result ← while_interrupted op;
       if result =? -1 then exit_with_errno else mret tt)
      (a ← attempt c eff; or_abort a).
Proof.
  intros Hop Hok w. unfold mbind at 1, M_bind at 1.
  unfold while_interrupted. rewrite (retry_interrupted_ext _ _ _ _ Hop).
  rewrite retry_interrupted_simple by done.
  unfold simple_call, mbind, M_bind, attempt.
  destruct (next_answer (skip_interrupted c (script w) w)) as [e|] eqn:Ha.
  - simpl. unfold exit_with_errno, mbind, M_bind, get_errno, answered.
    simpl. rewrite Ha. reflexivity.
  - simpl. pose proof (Hok (skip_interrupted c (script w) w)).
    destruct (okv _ =? -1) eqn:Heq; [apply Z.eqb_eq in Heq; lia|done].
Qed.

(** At the fork an array holds a pipe exactly when its flag is set. *)
Definition selects (flag fd : Z) : Prop :=
  if flag =? 0 then fd = -1 else 0 ≤ fd.

Definition arrays_match (c : request) (pin pout perr : Z * Z) : Prop :=
  (selects (redirectStdin c) pin.1 ∧ selects (redirectStdin c) pin.2) ∧
  (selects (redirectStdout c) pout.1 ∧ selects (redirectStdout c) pout.2) ∧
  (selects (redirectStderr c) perr.1 ∧ selects (redirectStderr c) perr.2).

Lemma bind_ret_unit (m : M unit) : meq (m ≫= λ _, mret tt) m.
Proof. intros w. unfold mbind, M_bind. by destruct (m w) as [[[]|h] w1]. Qed.

Lemma close_stage {B} flag fd (k : unit → M B) :
  selects flag fd →
  meq (CloseIfOpen fd ≫= k) (run_steps (map CloseEnd (wanted flag fd)) ≫= k).
Proof.
  unfold selects, wanted. intros Hsel w. destruct (flag =? 0).
  - subst. reflexivity.
  - unfold CloseIfOpen. rewrite (proj2 (Z.leb_le 0 fd) Hsel). reflexivity.
Qed.

Lemma close3_stage {B} f1 f2 f3 a b c (k : M B) :
  selects f1 a → selects f2 b → selects f3 c →
  meq (CloseIfOpen a;; CloseIfOpen b;; CloseIfOpen c;; k)
      (run_steps (map CloseEnd (wanted f1 a ++ wanted f2 b ++ wanted f3 c));; k).
Proof.
  intros H1 H2 H3. rewrite !map_app.
  eapply meq_trans; [|apply meq_sym, run_steps_app].
  eapply meq_trans; [apply (close_stage _ _ _ H1)|].
  apply bind_meq; [apply meq_refl|]. intros _.
  eapply meq_trans; [|apply meq_sym, run_steps_app].
  eapply meq_trans; [apply (close_stage _ _ _ H2)|].
  apply bind_meq; [apply meq_refl|]. intros _.
  apply (close_stage _ _ _ H3).
Qed.

(** [if (failed) _exit(...)] *)
Definition exit_if (failed : bool) : M unit :=
  if failed then exit_with_errno else mret tt.

Lemma or_else_exit (e1 e2 : M bool) :
  meq (b ← or_else e1 e2; exit_if b)
      ((b ← e1; exit_if b);; (b ← e2; exit_if b)).
Proof.
  intros w. unfold or_else, mbind, M_bind.
  destruct (e1 w) as [[[]|h] w1]; try done.
Qed.

Lemma redirect_guard flag oldfd newfd :
  0 ≤ newfd →
  meq (b ← and_then flag (dup2_failed oldfd newfd); exit_if b)
      (run_steps (wanted flag (Redirect oldfd newfd))).
Proof.
  intros Hnew. unfold and_then, wanted. destruct (flag =? 0).
  - by intros w.
  - simpl. eapply meq_trans; [|apply meq_sym, bind_ret_unit].
    unfold dup2_failed, Dup2WithInterruptedRetry.
    eapply meq_trans; [apply bind_assoc_meq|].
    eapply meq_trans;
      [|apply (retried_or_exit _ _ _ _ (sys_dup2_simple oldfd newfd)); done].
    apply bind_meq; [apply meq_refl|]. intros r w. reflexivity.
Qed.

Lemma redirect_stage f1 f2 f3 o1 o2 o3 :
  meq (b ← or_else (and_then f1 (dup2_failed o1 STDIN_FILENO))
             (or_else (and_then f2 (dup2_failed o2 STDOUT_FILENO))
                      (and_then f3 (dup2_failed o3 STDERR_FILENO)));
       exit_if b)
      (run_steps (wanted f1 (Redirect o1 STDIN_FILENO) ++
                  wanted f2 (Redirect o2 STDOUT_FILENO) ++
                  wanted f3 (Redirect o3 STDERR_FILENO))).
Proof.
  eapply meq_trans; [apply or_else_exit|].
  eapply meq_trans; [|apply bind_ret_unit].
  eapply meq_trans; [|apply meq_sym, run_steps_app].
  apply bind_meq; [by apply redirect_guard|]. intros _.
  eapply meq_trans; [apply or_else_exit|].
  eapply meq_trans; [|apply meq_sym, run_steps_app].
  apply bind_meq; [by apply redirect_guard|]. intros _.
  eapply meq_trans; [|apply meq_sym, bind_ret_unit].
  by apply redirect_guard.
Qed.

Lemma chdir_stage (dir : option string) :
  meq (match dir with
       | Some d =>
           result ← while_interrupted (sys_chdir d);
           if result =? -1 then exit_with_errno else mret tt
       | None => mret tt
       end)
      (run_steps (match dir with Some d => [ChangeDir d] | None => [] end)).
Proof.
  destruct dir as [d|]; [|apply meq_refl]. simpl.
  eapply meq_trans; [|apply meq_sym, bind_ret_unit].
  by apply (retried_or_exit _ _ _ _ (sys_chdir_simple d)).
Qed.

Lemma land_session flags :
  negb (Z.land flags CREATE_NEW_PROCESS_SESSION =? 0) = Z.testbit flags 0.
Proof.
  unfold CREATE_NEW_PROCESS_SESSION. change 1 with (Z.ones 1).
  rewrite Z.land_ones by lia. rewrite <- Z.bit0_mod.
  by destruct (Z.testbit flags 0).
Qed.

Lemma setsid_stage flags :
  meq (if negb (Z.land flags CREATE_NEW_PROCESS_SESSION =? 0) then
         result ← while_interrupted sys_setsid;
         if result =? -1 then exit_with_errno else mret tt
       else mret tt)
      (run_steps (if Z.testbit flags 0 then [NewSession] else [])).
Proof.
  rewrite land_session. destruct (Z.testbit flags 0); [|apply meq_refl].
  simpl. eapply meq_trans; [|apply meq_sym, bind_ret_unit].
  apply (retried_or_exit _ _ _ _ sys_setsid_simple). intros w. lia.
Qed.

Lemma execve_stage path args env :
  meq (sys_execve path args env;; exit_with_errno)
      (run_steps [ReplaceImage path args env];; mret 0).
Proof.
  intros w. simpl. unfold mbind, M_bind, sys_execve, answered.
  by destruct (next_answer w) as [e|] eqn:Ha.
Qed.

(** The child's code does the steps of [child_steps], in that order and
    nothing else. *)
Lemma child_branch_steps c pin pout perr :
  arrays_match c pin pout perr →
  meq (child_branch c pin pout perr)
      (run_steps (child_steps c pin pout perr);; mret 0).
Proof.
  intros ((Hi1 & Hi2) & (Ho1 & Ho2) & (He1 & He2)).
  unfold child_branch, child_steps. cbn [at_end].
  eapply meq_trans; [|apply meq_sym, run_steps_app].
  eapply meq_trans; [apply (close3_stage _ _ _ _ _ _ _ Hi2 Ho1 He1)|].
  apply bind_meq; [apply meq_refl|]. intros _.
  eapply meq_trans; [|apply meq_sym, run_steps_app].
  eapply meq_trans; [apply meq_sym, bind_assoc_meq|].
  apply bind_meq; [apply redirect_stage|]. intros _.
  eapply meq_trans; [|apply meq_sym, run_steps_app].
  eapply meq_trans; [apply (close3_stage _ _ _ _ _ _ _ Hi1 Ho2 He2)|].
  apply bind_meq; [apply meq_refl|]. intros _.
  eapply meq_trans; [|apply meq_sym, run_steps_app].
  apply bind_meq; [apply chdir_stage|]. intros _.
  eapply meq_trans; [|apply meq_sym, run_steps_app].
  apply bind_meq; [apply setsid_stage|]. intros _.
  apply execve_stage.
Qed.

(** ** The log of the child's steps *)

Definition step_call (s : step) : call :=
  match s with
  | CloseEnd fd => Close fd
  | Redirect oldfd newfd => Dup2 oldfd newfd
  | ChangeDir dir => Chdir dir
  | NewSession => Setsid
  | ReplaceImage path args env => Execve path args env
  end.

Definition step_closes (steps : list step) : list Z :=
  omap (λ s, match s with CloseEnd fd => Some fd | _ => None end) steps.

(** An event a step can log: its own call, or the [_exit] that ends it. *)
Definition by_step (s : step) (ev : event) : Prop :=
  ev.1 = step_call s ∨ ∃ status, ev.1 = ExitCall status.

Lemma skip_interrupted_log c s w :
  ∃ evs, trace (skip_interrupted c s w) = trace w ++ evs ∧
         Forall (λ ev, ev = (c, Some EINTR)) evs ∧
         mem (skip_interrupted c s w) = mem w ∧
         side (skip_interrupted c s w) = side w.
Proof.
  revert w. induction s as [|[e|] s IH]; intros w; simpl;
    try (exists []; by rewrite app_nil_r).
  destruct (e =? EINTR)%positive; [|exists []; by rewrite app_nil_r].
  destruct (IH (World (Z.pos EINTR) (fds w) (mem w) (pid w) (side w) s
                      (trace w ++ [(c, Some EINTR)])))
    as (evs & Ht & Hall & Hm & Hs).
  exists ((c, Some EINTR) :: evs). rewrite Ht, Hm, Hs. simpl.
  rewrite <- app_assoc. repeat split; [by constructor].
Qed.

Lemma attempt_log c eff w :
  ∃ a w' evs, attempt c eff w = (Next a, w') ∧
              trace w' = trace w ++ evs ++ [(c, a)] ∧
              Forall (λ ev, ev = (c, Some EINTR)) evs ∧
              mem w' = mem w ∧ side w' = side w ∧
              errno w' = errno_after a (skip_interrupted c (script w) w).
Proof.
  destruct (skip_interrupted_log c (script w) w) as (evs & Ht & Hall & Hm & Hs).
  unfold attempt. eexists _, _, evs. split; [reflexivity|].
  unfold answered. simpl. rewrite Ht, <- app_assoc. done.
Qed.

Lemma closes_of_none evs :
  Forall (λ ev : event, match ev.1 with Close _ => False | _ => True end) evs →
  closes_of evs = [].
Proof.
  induction 1 as [|[[] a] evs Hev _ IH]; simpl in *; try done.
Qed.

Lemma perform_log s w o w' :
  perform s w = (o, w') →
  ∃ evs, trace w' = trace w ++ evs ∧
         Forall (by_step s) evs ∧
         closes_of evs = step_closes [s] ∧
         mem w' = mem w ∧ side w' = side w ∧
         (∃ a, (step_call s, a) ∈ evs) ∧
         (∀ h, o = Halt h →
            (∃ status, h = Exited status) ∨
            (∃ path args env, s = ReplaceImage path args env ∧
                              h = Execed path args env)).
Proof.
  assert (Hretried : ∀ c eff,
    step_call s = c → step_closes [s] = [] →
    (∀ fd, c ≠ Close fd) →
    (a ← attempt c eff; or_abort a) w = (o, w') →
    ∃ evs, trace w' = trace w ++ evs ∧ Forall (by_step s) evs ∧
           closes_of evs = step_closes [s] ∧
           mem w' = mem w ∧ side w' = side w ∧
           (∃ a, (step_call s, a) ∈ evs) ∧
           (∀ h, o = Halt h →
              (∃ status, h = Exited status) ∨
              (∃ path args env, s = ReplaceImage path args env ∧
                                h = Execed path args env))).
  { intros c eff Hc Hcl Hnc Hrun. rewrite Hcl.
    destruct (attempt_log c eff w) as (a & w1 & evs & Heq & Ht & Hall & Hm & Hs & _).
    rewrite (bind_next _ _ _ _ _ Heq) in Hrun.
    assert (Hby : Forall (by_step s) (evs ++ [(c, a)])).
    { apply Forall_app. split.
      - eapply Forall_impl; [exact Hall|]. intros ev ->. left. by rewrite Hc.
      - repeat constructor. by rewrite Hc. }
    assert (Hin : ∃ a0, (step_call s, a0) ∈ evs ++ [(c, a)]).
    { exists a. rewrite Hc. apply elem_of_app. right. apply list_elem_of_singleton. done. }
    assert (Hno : ∀ l, Forall (by_step s) l → closes_of l = []).
    { intros l Hl. apply closes_of_none. eapply Forall_impl; [exact Hl|].
      intros [cl ?] [Hev|[st Hev]]; simpl in *; rewrite Hev; [|done].
      rewrite Hc. destruct c; try done. by destruct (Hnc fd). }
    destruct a as [e|]; simpl in Hrun; inversion Hrun; subst; clear Hrun.
    - exists (evs ++ [(step_call s, Some e)] ++ [(ExitCall (Z.pos e), None)]).
      simpl. rewrite Ht, <- !app_assoc. split; [done|].
      assert (Hby' : Forall (by_step s)
                (evs ++ [(step_call s, Some e); (ExitCall (Z.pos e), None)])).
      { apply Forall_app in Hby as [HbyE _]. apply Forall_app. split; [done|].
        apply Forall_cons_2; [by left|]. apply Forall_cons_2; [|done].
        right. by eexists. }
      repeat split; try done.
      + by apply Hno.
      + destruct Hin as [a0 Hin]. exists a0. rewrite elem_of_app in Hin.
        rewrite elem_of_app. destruct Hin as [?|Hin]; [by left|right].
        apply list_elem_of_singleton in Hin. rewrite Hin. apply elem_of_cons. by left.
      + intros h [= <-]. left. by eexists.
    - exists (evs ++ [(step_call s, None)]). repeat split; try done.
      by apply Hno. }
  destruct s as [fd|oldfd newfd|dir| |path args env]; simpl.
  - intros [= <- <-]. exists [(Close fd, next_answer w)]. simpl.
    repeat split; try done.
    + repeat constructor.
    + eexists. apply list_elem_of_singleton. done.
  - by apply Hretried.
  - by apply Hretried.
  - by apply Hretried.
  - clear Hretried. unfold answered, sys_exit.
    destruct (next_answer w) as [e|] eqn:Ha; intros [= <- <-]; simpl.
    + exists [(Execve path args env, Some e); (ExitCall (Z.pos e), None)].
      rewrite <- app_assoc. repeat split; try done.
      * apply Forall_cons_2; [by left|].
        apply Forall_cons_2; [right; by eexists|done].
      * eexists. apply elem_of_cons. by left.
      * intros h [= <-]. left. by eexists.
    + exists [(Execve path args env, None)]. repeat split; try done.
      * repeat constructor.
      * eexists. apply list_elem_of_singleton. done.
      * intros h [= <-]. right. by eexists _, _, _.
Qed.

Lemma step_closes_cons s steps :
  step_closes (s :: steps) = step_closes [s] ++ step_closes steps.
Proof. unfold step_closes. simpl. by destruct s. Qed.

Lemma step_closes_app l1 l2 :
  step_closes (l1 ++ l2) = step_closes l1 ++ step_closes l2.
Proof. apply omap_app. Qed.

Lemma step_closes_CloseEnd l : step_closes (map CloseEnd l) = l.
Proof.
  induction l as [|x l IH]; [done|].
  change (map CloseEnd (x :: l)) with (CloseEnd x :: map CloseEnd l).
  rewrite step_closes_cons, IH. done.
Qed.

(** What a run of steps leaves in the log: events of those steps only,
    the [close] calls of a prefix of them; if it comes to [execve]
    succeeding, every step before that one was performed. *)
Lemma run_steps_log steps w o w' :
  run_steps steps w = (o, w') →
  ∃ evs, trace w' = trace w ++ evs ∧
         Forall (λ ev, ∃ s, s ∈ steps ∧ by_step s ev) evs ∧
         closes_of evs `prefix_of` step_closes steps ∧
         mem w' = mem w ∧ side w' = side w ∧
         (o = Next tt →
            closes_of evs = step_closes steps ∧
            ∀ s, s ∈ steps → ∃ a, (step_call s, a) ∈ evs) ∧
         (∀ h, o = Halt h →
            (∃ status, h = Exited status) ∨
            (∃ path args env pre post,
               h = Execed path args env ∧
               steps = pre ++ ReplaceImage path args env :: post ∧
               ∀ s, s ∈ pre → ∃ a, (step_call s, a) ∈ evs)).
Proof.
  revert w. induction steps as [|s rest IH]; intros w Hrun.
  - injection Hrun as <- <-. exists []. rewrite app_nil_r.
    repeat split; try done. intros s Hs. by apply elem_of_nil in Hs.
  - cbn [run_steps] in Hrun. unfold mbind, M_bind in Hrun.
    destruct (perform s w) as [[[]|h1] w1] eqn:Hs.
    + destruct (perform_log _ _ _ _ Hs) as (evs1 & Ht1 & Hby1 & Hc1 & Hm1 & Hsd1 & Hin1 & _).
      destruct (IH _ Hrun) as (evs2 & Ht2 & Hby2 & Hc2 & Hm2 & Hsd2 & Hnext & Hhalt).
      exists (evs1 ++ evs2). rewrite Ht2, Ht1, <- app_assoc. split; [done|].
      split; [|split; [|split; [congruence|split; [congruence|split]]]].
      * apply Forall_app. split.
        -- eapply Forall_impl; [exact Hby1|]. intros ev Hev. exists s.
           split; [apply elem_of_cons; by left|done].
        -- eapply Forall_impl; [exact Hby2|]. intros ev (s' & Hs' & Hev).
           exists s'. split; [apply elem_of_cons; by right|done].
      * rewrite closes_of_app, step_closes_cons, Hc1.
        destruct Hc2 as [k ->]. exists k. by rewrite <- app_assoc.
      * intros Ho. destruct (Hnext Ho) as [Hcl Hall]. split.
        -- by rewrite closes_of_app, step_closes_cons, Hc1, Hcl.
        -- intros s' [->|Hs']%elem_of_cons.
           ++ destruct Hin1 as [a Ha]. exists a. apply elem_of_app. by left.
           ++ destruct (Hall _ Hs') as [a Ha]. exists a. apply elem_of_app. by right.
      * intros h Ho. destruct (Hhalt h Ho) as [?|(p & a & e & pre & post & -> & -> & Hpre)];
          [by left|right].
        exists p, a, e, (s :: pre), post. split; [done|]. split; [done|].
        intros s' [->|Hs']%elem_of_cons.
        -- destruct Hin1 as [a0 Ha]. exists a0. apply elem_of_app. by left.
        -- destruct (Hpre _ Hs') as [a0 Ha]. exists a0. apply elem_of_app. by right.
    + injection Hrun as <- <-.
      destruct (perform_log _ _ _ _ Hs) as (evs1 & Ht1 & Hby1 & Hc1 & Hm1 & Hsd1 & Hin1 & Hh1).
      exists evs1. split; [done|].
      split; [|split; [|split; [done|split; [done|split; [done|]]]]].
      * eapply Forall_impl; [exact Hby1|]. intros ev Hev. exists s.
        split; [apply elem_of_cons; by left|done].
      * rewrite step_closes_cons, Hc1. by eexists.
      * intros h [= <-]. destruct (Hh1 _ eq_refl) as [?|(p & a & e & -> & ->)];
          [by left|right].
        exists p, a, e, [], rest. split; [done|]. split; [done|].
        intros s' Hs'. by apply elem_of_nil in Hs'.
Qed.

(** ** The paths through [ForkAndExecProcess] *)

Definition sentinel_outputs (c : request) (w : world) : Prop :=
  load (childPid c) w = Some (-1) ∧ load (stdinFd c) w = Some (-1) ∧
  load (stdoutFd c) w = Some (-1) ∧ load (stderrFd c) w = Some (-1).

(** The pipes the flags ask for, and the two sides of them. *)
Definition requested_pipes (c : request) (pin pout perr : Z * Z) : list (Z * Z) :=
  wanted (redirectStdin c) pin ++ wanted (redirectStdout c) pout ++
  wanted (redirectStderr c) perr.

Definition child_side (c : request) (pin pout perr : Z * Z) : list Z :=
  wanted (redirectStdin c) pin.1 ++ wanted (redirectStdout c) pout.2 ++
  wanted (redirectStderr c) perr.2.

Definition parent_side (c : request) (pin pout perr : Z * Z) : list Z :=
  wanted (redirectStdin c) pin.2 ++ wanted (redirectStdout c) pout.1 ++
  wanted (redirectStderr c) perr.1.

Definition opened (ps : list (Z * Z)) : list event :=
  map (λ p, (Pipe p, None)) ps.

(** [run_path c w o w' evs]: the call on [w] ends in [o] and [w'] having
    logged [evs], along one of six paths. *)
Inductive run_path (c : request) (w : world) (o : res Z) (w' : world) :
    list event → Prop :=
| path_rejected :
    null_argument c || bad_redirect c = true →
    errno w' = Z.pos EINVAL → fds w' = fds w →
    (outputs_writable c → o = Next (-1) ∧ sentinel_outputs c w') →
    (¬ outputs_writable c → o = Halt NullStore) →
    run_path c w o w' []
| path_access_denied e :
    null_argument c = false → bad_redirect c = false →
    o = Next (-1) → errno w' = Z.pos e → fds w' = fds w →
    sentinel_outputs c w' →
    run_path c w o w' [(Access (filename c) X_OK, Some e)]
| path_pipe_refused ps e cl :
    null_argument c = false → bad_redirect c = false →
    o = Next (-1) → errno w' = Z.pos e → fds w' = fds w →
    sentinel_outputs c w' →
    Forall is_close cl → NoDup (closes_of cl) → closes_of cl ≡ₚ ends ps →
    Forall (λ fd, 0 ≤ fd) (ends ps) →
    run_path c w o w'
      ((Access (filename c) X_OK, None) :: opened ps ++
       [(Pipe (-1, -1), Some e)] ++ cl)
| path_fork_failed pin pout perr e cl :
    null_argument c = false → bad_redirect c = false →
    o = Next (-1) → errno w' = Z.pos e → fds w' = fds w →
    sentinel_outputs c w' →
    Forall is_close cl → NoDup (closes_of cl) →
    closes_of cl ≡ₚ ends (requested_pipes c pin pout perr) →
    Forall (λ fd, 0 ≤ fd) (ends (requested_pipes c pin pout perr)) →
    run_path c w o w'
      ((Access (filename c) X_OK, None) ::
       opened (requested_pipes c pin pout perr) ++ [(Fork, Some e)] ++ cl)
| path_parent pin pout perr child lp li lo le cl :
    null_argument c = false → bad_redirect c = false →
    side w = InParent child → o = Next 0 →
    childPid c = Some lp → stdinFd c = Some li →
    stdoutFd c = Some lo → stderrFd c = Some le →
    mem w' = <[le := handle (redirectStderr c) perr.1]>
               (<[lo := handle (redirectStdout c) pout.1]>
                  (<[li := handle (redirectStdin c) pin.2]>
                     (<[lp := Z.pos child]> (mem w)))) →
    Forall is_close cl → closes_of cl = child_side c pin pout perr →
    NoDup (child_side c pin pout perr ++ parent_side c pin pout perr) →
    child_side c pin pout perr ++ parent_side c pin pout perr ≡ₚ
      ends (requested_pipes c pin pout perr) →
    Forall (λ fd, 0 ≤ fd ∧ fd ∉ fds w) (parent_side c pin pout perr) →
    Forall (λ fd, 0 ≤ fd) (child_side c pin pout perr) →
    fds w' = fds w ∪ list_to_set (parent_side c pin pout perr) →
    run_path c w o w'
      ((Access (filename c) X_OK, None) ::
       opened (requested_pipes c pin pout perr) ++ [(Fork, None)] ++ cl)
| path_child pin pout perr self w1 cevs :
    null_argument c = false → bad_redirect c = false →
    side w = InChild self →
    arrays_match c pin pout perr →
    NoDup (ends (requested_pipes c pin pout perr)) →
    Forall (λ fd, 0 ≤ fd) (ends (requested_pipes c pin pout perr)) →
    trace w1 = trace w ++ (Access (filename c) X_OK, None) ::
               opened (requested_pipes c pin pout perr) ++ [(Fork, None)] →
    mem w1 = mem w → errno w1 = errno w → pid w1 = self →
    fds w1 = fds w ∪ list_to_set (ends (requested_pipes c pin pout perr)) →
    (run_steps (child_steps c pin pout perr);; mret 0) w1 = (o, w') →
    trace w' = trace w1 ++ cevs →
    run_path c w o w'
      ((Access (filename c) X_OK, None) ::
       opened (requested_pipes c pin pout perr) ++ [(Fork, None)] ++ cevs).

Lemma null_argument_writable c : null_argument c = false → outputs_writable c.
Proof.
  unfold null_argument, outputs_writable.
  destruct (filename c), (argv c), (envp c), (stdinFd c), (stdoutFd c),
    (stderrFd c), (childPid c); simpl; try done.
Qed.

Lemma live_wanted_selects flag (p : Z * Z) :
  live p = wanted flag p →
  p = (-1, -1) ∨ (0 ≤ p.1 ∧ 0 ≤ p.2) →
  selects flag p.1 ∧ selects flag p.2.
Proof.
  unfold live, wanted, selects.
  destruct (flag =? 0), (0 <=? p.1) eqn:Hp; try done;
    intros _ [->|[? ?]]; simpl in *; try done; lia.
Qed.

Lemma selects_open_ones flag fd : selects flag fd → open_ones [fd] = wanted flag fd.
Proof.
  unfold selects, wanted. simpl. destruct (flag =? 0).
  - by intros ->.
  - intros H. by rewrite (proj2 (Z.leb_le 0 fd) H).
Qed.

Lemma selects_open_ones3 f1 f2 f3 a b c :
  selects f1 a → selects f2 b → selects f3 c →
  open_ones [a; b; c] = wanted f1 a ++ wanted f2 b ++ wanted f3 c.
Proof.
  intros H1 H2 H3.
  change [a; b; c] with ([a] ++ [b] ++ [c]). rewrite !open_ones_app.
  by rewrite (selects_open_ones _ _ H1), (selects_open_ones _ _ H2),
    (selects_open_ones _ _ H3).
Qed.

Lemma selects_handle flag fd : selects flag fd → fd = handle flag fd.
Proof. unfold selects, handle. by destruct (flag =? 0). Qed.

Lemma only_closes evs : Forall is_close evs → closes_of evs = [] → evs = [].
Proof.
  destruct 1 as [|[[] a] evs Hev _]; simpl; try done.
Qed.

Lemma rejected_path c w o w' :
  null_argument c || bad_redirect c = true →
  (set_errno (Z.pos EINVAL);; done c false (-1, -1) (-1, -1) (-1, -1)) w = (o, w') →
  trace w' = trace w ∧ run_path c w o w' [].
Proof.
  intros Hrej. unfold done, mbind, M_bind. simpl.
  destruct (stdinFd c) as [li|] eqn:Hi; simpl;
    [destruct (stdoutFd c) as [lo|] eqn:Ho; simpl;
      [destruct (stderrFd c) as [le|] eqn:He; simpl;
        [destruct (childPid c) as [lp|] eqn:Hp; simpl|]|]|];
    intros [= <- <-]; (split; [done|]); apply path_rejected; try done;
    unfold outputs_writable, sentinel_outputs, load;
    rewrite ?Hi, ?Ho, ?He, ?Hp; simpl;
    try (intros (? & ? & ? & ?); by repeat match goal with
                                     | H : is_Some None |- _ => destruct H
                                     end).
  - intros _. split; [done|].
    rewrite !lookup_insert. repeat case_decide; done.
  - intros H. destruct H. repeat split; by eexists.
Qed.

Lemma failing_done c base w pin pout perr o w' :
  outputs_writable c →
  pipes_state base pin pout perr (fds w) →
  done c false pin pout perr w = (o, w') →
  o = Next (-1) ∧ errno w' = errno w ∧ fds w' = base ∧
  sentinel_outputs c w' ∧
  ∃ cl, trace w' = trace w ++ cl ∧ Forall is_close cl ∧
        NoDup (closes_of cl) ∧
        closes_of cl ≡ₚ ends (live pin ++ live pout ++ live perr).
Proof.
  intros Hw Hst Hdone.
  destruct (done_failure c pin pout perr w Hw)
    as (w2 & Heq & He & Hf & _ & (cl & Ht & Hcl & Hco) & Hl).
  rewrite Heq in Hdone. injection Hdone as <- <-.
  destruct (pipes_state_cleanup _ _ _ _ _ Hst) as (Hnd & Hperm & Hbase).
  split; [done|]. split; [done|]. split; [by rewrite Hf, Hbase|].
  split; [exact Hl|]. exists cl. by rewrite Hco.
Qed.

Lemma pipes_state_nonneg base pin pout perr cur :
  pipes_state base pin pout perr cur →
  Forall (λ fd, 0 ≤ fd) (ends (live pin ++ live pout ++ live perr)).
Proof.
  intros H. rewrite <- (sides_ends _ _ _ _ _ H).
  apply Forall_app. split; apply open_ones_nonneg.
Qed.

Lemma then_return_inv (m : M unit) (r : Z) w o w' :
  (m;; mret r) w = (o, w') →
  (m w = (Next tt, w') ∧ o = Next r) ∨ (∃ h, m w = (Halt h, w') ∧ o = Halt h).
Proof.
  unfold mbind, M_bind. destruct (m w) as [[[]|h] w1]; intros [= <- <-].
  - by left.
  - right. by exists h.
Qed.

(** Every call follows one of the six paths. *)
Lemma run_classified c w o w' :
  ForkAndExecProcess c w = (o, w') →
  ∃ evs, trace w' = trace w ++ evs ∧ run_path c w o w' evs.
Proof.
  unfold ForkAndExecProcess.
  destruct (null_argument c) eqn:Hnull.
  { intros Hrun. exists []. rewrite app_nil_r.
    apply rejected_path; [by rewrite Hnull|done]. }
  destruct (bad_redirect c) eqn:Hbad.
  { intros Hrun. exists []. rewrite app_nil_r.
    apply rejected_path; [by rewrite Hnull, Hbad|done]. }
  pose proof (null_argument_writable c Hnull) as Hw.
  unfold mbind at 1, M_bind at 1. unfold sys_access.
  destruct (next_answer w) as [e|] eqn:Ha; cbn [ret_of Z.eqb negb].
  { (* the access check fails *)
    intros Hdone.
    assert (Hst : pipes_state (fds w) (-1, -1) (-1, -1) (-1, -1)
                    (fds (answered (Access (filename c) X_OK) w (fds w) (pid w)))).
    { unfold pipes_state. rewrite !live_unset. simpl.
      repeat split; try constructor; auto; try constructor; auto.
      set_solver. }
    destruct (failing_done _ _ _ _ _ _ _ _ Hw Hst Hdone)
      as (-> & He & Hf & Hl & cl & Ht & Hcl & _ & Hperm).
    rewrite !live_unset in Hperm. simpl in Hperm.
    apply Permutation_nil_r in Hperm.
    apply (only_closes _ Hcl) in Hperm as ->.
    rewrite app_nil_r in Ht. simpl in *. rewrite Ha in *.
    eexists. split; [exact Ht|]. by apply path_access_denied. }
  (* the pipes *)
  set (w1 := answered (Access (filename c) X_OK) w (fds w) (pid w)).
  assert (Ht1 : trace w1 = trace w ++ [(Access (filename c) X_OK, None)])
    by (unfold w1, answered; simpl; by rewrite Ha).
  assert (He1 : errno w1 = errno w) by (unfold w1, answered; simpl; by rewrite Ha).
  assert (Hf1 : fds w1 = fds w) by done.
  assert (Hm1 : mem w1 = mem w) by done.
  assert (Hs1 : side w1 = side w) by done.
  assert (Hp1 : pid w1 = pid w) by done.
  clearbody w1.
  destruct (open_pipes_spec c w1)
    as (failed & pin & pout & perr & w2 & pevs & Heq & Ht2 & Hm2 & Hs2 & Hp2
        & Hst & Hpipes & Hok & Hfail).
  rewrite (bind_next _ _ _ _ _ Heq). cbv beta iota. rewrite Hf1 in Hst.
  remember (pipes_of pevs) as ps eqn:Hps.
  destruct failed.
  { (* a pipe is refused *)
    destruct (Hfail eq_refl) as (e & He2 & Hpevs). intros Hdone.
    destruct (failing_done _ _ _ _ _ _ _ _ Hw Hst Hdone)
      as (-> & He & Hf & Hl & cl & Ht & Hcl & Hnd & Hperm).
    pose proof (pipes_state_nonneg _ _ _ _ _ Hst) as Hnn.
    exists ((Access (filename c) X_OK, None) :: opened ps ++
            [(Pipe (-1, -1), Some e)] ++ cl).
    split.
    - rewrite Ht, Ht2, Ht1, Hpevs. rewrite <- !app_assoc. done.
    - apply path_pipe_refused; try done; try congruence. }
  destruct (Hok eq_refl) as (He2 & Hpevs & Hlin & Hlout & Hlerr).
  assert (Hreq : ps = requested_pipes c pin pout perr)
    by (unfold requested_pipes; by rewrite Hpipes, Hlin, Hlout, Hlerr).
  assert (Harr : arrays_match c pin pout perr).
  { destruct Hst as (Hall & _). rewrite !Forall_cons in Hall.
    destruct Hall as (H1 & H2 & H3 & _).
    split; [|split]; by apply live_wanted_selects. }
  assert (Ht2' : trace w2 = trace w ++ (Access (filename c) X_OK, None) :: opened ps).
  { rewrite Ht2, Ht1, Hpevs, <- app_assoc. done. }
  clear Hpevs Ht2 Hfail Hok Heq.
  (* the fork *)
  unfold mbind at 1, M_bind at 1. unfold sys_fork.
  destruct (next_answer w2) as [e|] eqn:Hfork.
  { (* fork fails *)
    cbn [Z.eqb]. intros Hdone.
    set (w3 := answered Fork w2 (fds w2) (pid w2)) in *.
    assert (Hst3 : pipes_state (fds w) pin pout perr (fds w3)) by done.
    destruct (failing_done _ _ _ _ _ _ _ _ Hw Hst3 Hdone)
      as (-> & He & Hf & Hl & cl & Ht & Hcl & Hnd & Hperm).
    exists ((Access (filename c) X_OK, None) :: opened ps ++
            [(Fork, Some e)] ++ cl).
    split.
    - rewrite Ht. unfold w3, answered. simpl. rewrite Ht2', Hfork.
      rewrite <- !app_assoc. done.
    - rewrite Hreq. apply path_fork_failed; try done.
      + rewrite He. unfold w3, answered. simpl. by rewrite Hfork.
      + unfold requested_pipes. by rewrite <- Hlin, <- Hlout, <- Hlerr.
      + pose proof (pipes_state_nonneg _ _ _ _ _ Hst3) as Hnn.
        unfold requested_pipes. by rewrite <- Hlin, <- Hlout, <- Hlerr. }
  assert (Hends : ends (live pin ++ live pout ++ live perr) =
                  ends (requested_pipes c pin pout perr))
    by (unfold requested_pipes; by rewrite <- Hlin, <- Hlout, <- Hlerr).
  destruct Harr as ((Hi1 & Hi2) & (Ho1 & Ho2) & (He1' & He2')).
  destruct (side w2) as [child|self] eqn:Hside.
  - (* the parent *)
    cbn [Z.eqb]. cbv iota.
    destruct Hw as ([lp Hlp] & [li Hli] & [lo Hlo] & [le Hle]).
    rewrite Hlp, Hli, Hlo, Hle. do 4 prim_step. cbn [at_end].
    match goal with |- done _ _ _ _ _ ?w = _ → _ => set (w4 := w) end.
    destruct (done_success c pin pout perr w4)
      as (w5 & -> & Hf5 & Hm5 & Hs5 & Hp5 & cl & Ht5 & Hcl & Hco).
    intros [= <- <-].
    destruct (pipes_state_handover _ _ _ _ _ Hst) as (Hnd & Hfresh & Hkeep).
    pose proof (sides_ends _ _ _ _ _ Hst) as Hperm.
    rewrite (selects_open_ones3 _ _ _ _ _ _ Hi1 Ho2 He2') in *.
    rewrite (selects_open_ones3 _ _ _ _ _ _ Hi2 Ho1 He1') in *.
    rewrite Hends in Hperm.
    exists ((Access (filename c) X_OK, None) :: opened ps ++ [(Fork, None)] ++ cl).
    split.
    + rewrite Ht5. unfold w4, answered. simpl. rewrite Ht2', Hfork.
      rewrite <- !app_assoc. done.
    + rewrite Hreq.
      eapply (path_parent _ _ _ _ pin pout perr child lp li lo le);
        try done; try congruence.
      * rewrite Hm5. unfold w4. simpl. rewrite Hm2, Hm1.
        by rewrite <- (selects_handle _ _ Hi2), <- (selects_handle _ _ Ho1),
          <- (selects_handle _ _ He1').
      * apply Forall_forall. intros fd Hfd. split.
        -- pose proof (open_ones_nonneg [pin.2; pout.1; perr.1]) as Hnn.
           rewrite (selects_open_ones3 _ _ _ _ _ _ Hi2 Ho1 He1') in Hnn.
           rewrite Forall_forall in Hnn. by apply Hnn.
        -- rewrite Forall_forall in Hfresh. by apply Hfresh.
      * pose proof (open_ones_nonneg [pin.1; pout.2; perr.2]) as Hnn.
        by rewrite (selects_open_ones3 _ _ _ _ _ _ Hi1 Ho2 He2') in Hnn.
      * rewrite Hf5. unfold w4. simpl. exact Hkeep.
  - (* the child *)
    cbn [Z.eqb]. cbv iota.
    match goal with |- child_branch _ _ _ _ ?w = _ → _ => set (w3 := w) end.
    rewrite (child_branch_steps c pin pout perr
               (conj (conj Hi1 Hi2) (conj (conj Ho1 Ho2) (conj He1' He2')))).
    intros Hrun.
    assert (∃ cevs, trace w' = trace w3 ++ cevs) as [cevs Hcevs].
    { destruct (then_return_inv _ _ _ _ _ Hrun) as [[Hr _]|(h & Hr & _)];
        destruct (run_steps_log _ _ _ _ Hr) as (cevs & Hc & _); by exists cevs. }
    pose proof (pipes_state_nonneg _ _ _ _ _ Hst) as Hnn.
    destruct Hst as (_ & Hnd & _ & Hcur).
    exists ((Access (filename c) X_OK, None) :: opened ps ++ [(Fork, None)] ++ cevs).
    split.
    + rewrite Hcevs. unfold w3, answered. simpl. rewrite Ht2', Hfork.
      rewrite <- !app_assoc. done.
    + rewrite Hreq.
      eapply (path_child _ _ _ _ pin pout perr self w3 cevs);
        try done; try congruence.
      all: try (rewrite <- Hends; done).
      all: unfold w3, answered; simpl; rewrite ?Hfork; simpl; try congruence.
      rewrite Ht2', Hreq, <- !app_assoc. done.
Qed.

(** ** Reading the paths *)

(** The calls of the set-up phase. *)
Definition is_setup (cl : call) : Prop :=
  match cl with Access _ _ | Pipe _ | Fork => True | _ => False end.

(** The steps before the program image is replaced. *)
Definition child_setup_steps (c : request) (pin pout perr : Z * Z) : list step :=
  map CloseEnd (parent_side c pin pout perr) ++
  (wanted (redirectStdin c) (Redirect pin.1 STDIN_FILENO) ++
   wanted (redirectStdout c) (Redirect pout.2 STDOUT_FILENO) ++
   wanted (redirectStderr c) (Redirect perr.2 STDERR_FILENO)) ++
  map CloseEnd (child_side c pin pout perr) ++
  match cwd c with Some dir => [ChangeDir dir] | None => [] end ++
  (if Z.testbit (creationFlags c) 0 then [NewSession] else []).

Lemma child_steps_split c pin pout perr :
  child_steps c pin pout perr =
    child_setup_steps c pin pout perr ++
    [ReplaceImage (filename c) (argv c) (envp c)].
Proof.
  unfold child_steps, child_setup_steps, parent_side, child_side.
  by rewrite <- !app_assoc.
Qed.

Lemma step_closes_wanted flag s :
  (∀ fd, s ≠ CloseEnd fd) → step_closes (wanted flag s) = [].
Proof.
  intros H. unfold wanted. destruct (flag =? 0); [done|].
  destruct s; try done. by destruct (H fd).
Qed.

Lemma child_steps_closes c pin pout perr :
  step_closes (child_steps c pin pout perr) =
    parent_side c pin pout perr ++ child_side c pin pout perr.
Proof.
  rewrite child_steps_split. unfold child_setup_steps.
  rewrite !step_closes_app, !step_closes_CloseEnd,
    !step_closes_wanted by done.
  destruct (cwd c), (Z.testbit (creationFlags c) 0); simpl;
    by rewrite ?app_nil_r.
Qed.

Lemma run_steps_then_exec pre path args env w o w' :
  run_steps (pre ++ [ReplaceImage path args env]) w = (o, w') →
  ∃ h, o = Halt h.
Proof.
  revert w. induction pre as [|s pre IH]; intros w; simpl.
  - unfold mbind, M_bind, sys_exit.
    destruct (next_answer w); intros [= <- <-]; by eexists.
  - unfold mbind at 1, M_bind at 1.
    destruct (perform s w) as [[[]|h] w1]; [apply IH|].
    intros [= <- <-]. by eexists.
Qed.

(** The child never comes back from the call: it ends in [execve] or
    [_exit], and its log holds no call of the set-up phase. *)
Lemma child_run c pin pout perr w1 o w' cevs :
  (run_steps (child_steps c pin pout perr);; mret 0) w1 = (o, w') →
  trace w' = trace w1 ++ cevs →
  ∃ h, o = Halt h ∧
       run_steps (child_steps c pin pout perr) w1 = (Halt h, w') ∧
       ((∃ status, h = Exited status) ∨
        h = Execed (filename c) (argv c) (envp c)) ∧
       Forall (λ ev : event, ¬ is_setup ev.1) cevs ∧
       pipes_of cevs = [] ∧
       closes_of cevs `prefix_of`
         (parent_side c pin pout perr ++ child_side c pin pout perr).
Proof.
  intros Hrun Ht.
  destruct (then_return_inv _ _ _ _ _ Hrun) as [[Hr _]|(h & Hr & ->)].
  { rewrite child_steps_split in Hr.
    by destruct (run_steps_then_exec _ _ _ _ _ _ _ Hr) as [h ?]. }
  destruct (run_steps_log _ _ _ _ Hr)
    as (evs & Ht' & Hby & Hpre & _ & _ & _ & Hhalt).
  rewrite Ht in Ht'. apply app_inv_head in Ht' as <-.
  assert (Hset : Forall (λ ev : event, ¬ is_setup ev.1) cevs).
  { eapply Forall_impl; [exact Hby|].
    intros [cl a] (s & _ & [Hev|[st Hev]]); simpl in *; rewrite Hev;
      [destruct s; simpl; tauto|simpl; tauto]. }
  exists h. split; [done|]. split; [done|]. split; [|split; [done|split]].
  - destruct (Hhalt h eq_refl) as [?|(p & a & e & pre & post & -> & Hsteps & _)];
      [by left|right].
    rewrite child_steps_split in Hsteps.
    assert (Hin : ReplaceImage p a e ∈
                  child_setup_steps c pin pout perr ++
                  [ReplaceImage (filename c) (argv c) (envp c)])
      by (rewrite Hsteps; apply elem_of_app; right; apply elem_of_cons; by left).
    apply elem_of_app in Hin as [Hin|Hin].
    + exfalso. unfold child_setup_steps, wanted in Hin.
      repeat (apply elem_of_app in Hin as [Hin|Hin]);
        try (apply list_elem_of_fmap in Hin as (? & ? & ?); done);
        repeat match type of Hin with
               | context [if ?b then _ else _] => destruct b
               | context [match ?b with _ => _ end] => destruct b
               end;
        repeat (apply elem_of_cons in Hin as [Hin|Hin]; try done);
        by apply elem_of_nil in Hin.
    + apply list_elem_of_singleton in Hin. by injection Hin as -> -> ->.
  - clear -Hset. induction Hset as [|[[] [|]] evs Hev _ IH]; simpl in *; try done.
  - by rewrite <- child_steps_closes.
Qed.

Lemma in_opened ps ev : ev ∈ opened ps → ∃ p, ev = (Pipe p, None).
Proof. intros (p & -> & _)%list_elem_of_fmap. by exists p. Qed.

Lemma in_closes cl (ev : event) : Forall is_close cl → ev ∈ cl → is_close ev.
Proof. rewrite Forall_forall. auto. Qed.

Lemma closes_of_opened ps : closes_of (opened ps) = [].
Proof. induction ps as [|p ps IH]; [done|]. simpl. exact IH. Qed.

Lemma pipes_of_closes cl : Forall is_close cl → pipes_of cl = [].
Proof. induction 1 as [|[[] [|]] cl Hev _ IH]; simpl in *; done. Qed.

Lemma sides_requested c pin pout perr :
  parent_side c pin pout perr ++ child_side c pin pout perr ≡ₚ
    ends (requested_pipes c pin pout perr).
Proof.
  unfold parent_side, child_side, requested_pipes, wanted.
  destruct (redirectStdin c =? 0), (redirectStdout c =? 0),
    (redirectStderr c =? 0); simpl; solve_Permutation.
Qed.

Lemma log_closes ev1 ps ev2 rest :
  closes_of (ev1 :: opened ps ++ [ev2] ++ rest) =
    closes_of [ev1] ++ closes_of [ev2] ++ closes_of rest.
Proof.
  change (ev1 :: opened ps ++ [ev2] ++ rest)
    with ([ev1] ++ opened ps ++ [ev2] ++ rest).
  by rewrite !closes_of_app, closes_of_opened.
Qed.

Lemma log_pipes ev1 ps ev2 rest :
  pipes_of (ev1 :: opened ps ++ [ev2] ++ rest) =
    pipes_of [ev1] ++ ps ++ pipes_of [ev2] ++ pipes_of rest.
Proof.
  change (ev1 :: opened ps ++ [ev2] ++ rest)
    with ([ev1] ++ opened ps ++ [ev2] ++ rest).
  by rewrite !pipes_of_app, pipes_of_opened.
Qed.

Ltac path_cases H :=
  destruct H as
    [ Hrej Herr Hfds Hwr Hnw
    | err Hnull Hbad Ho Herr Hfds Hsent
    | ps err cl Hnull Hbad Ho Herr Hfds Hsent Hcl Hnd Hperm Hnn
    | pin pout perr err cl Hnull Hbad Ho Herr Hfds Hsent Hcl Hnd Hperm Hnn
    | pin pout perr child lp li lo le cl Hnull Hbad Hside Ho Hlp Hli Hlo Hle
        Hmem Hcl Hco Hnd Hperm Hkeep Hgive Hfds
    | pin pout perr self w1 cevs Hnull Hbad Hside Harr Hnd Hnn Ht1 Hm1 He1
        Hp1 Hf1 Hrun Ht ].

(** The log of a path, read for pipes and closes. *)
Lemma path_log c w o w' evs :
  run_path c w o w' evs →
  NoDup (closes_of evs) ∧
  (∀ fd, fd ∈ closes_of evs → fd ∈ ends (pipes_of evs)) ∧
  Forall (λ fd, 0 ≤ fd) (ends (pipes_of evs)).
Proof.
  intros H. path_cases H; rewrite ?log_closes, ?log_pipes;
    simpl (closes_of [_]); simpl (pipes_of [_]); simpl app.
  - repeat split; [constructor|by intros ? ?%elem_of_nil|constructor].
  - repeat split; [constructor|by intros ? ?%elem_of_nil|constructor].
  - rewrite pipes_of_closes, app_nil_r by done.
    repeat split; try done. intros fd. by rewrite Hperm.
  - rewrite pipes_of_closes, app_nil_r by done.
    repeat split; try done. intros fd. by rewrite Hperm.
  - rewrite pipes_of_closes, app_nil_r by done. rewrite Hco.
    apply NoDup_app in Hnd as (Hnd & _ & _).
    repeat split; try done.
    + intros fd Hfd. rewrite <- Hperm. apply elem_of_app. by left.
    + rewrite <- Hperm. apply Forall_app. split; [done|].
      eapply Forall_impl; [exact Hkeep|]. by intros fd [? _].
  - destruct (child_run _ _ _ _ _ _ _ _ Hrun Ht)
      as (h & _ & _ & _ & _ & Hp & [k Hk]).
    rewrite Hp, app_nil_r.
    pose proof (sides_requested c pin pout perr) as Hperm.
    rewrite Hk in Hperm.
    repeat split; try done.
    + rewrite <- Hperm in Hnd. by apply NoDup_app in Hnd as (Hnd & _ & _).
    + intros fd Hfd. rewrite <- Hperm. apply elem_of_app. by left.
Qed.

Lemma in_log (ev ev1 : event) ps ev2 rest :
  ev ∈ ev1 :: opened ps ++ [ev2] ++ rest →
  ev = ev1 ∨ (∃ p, ev = (Pipe p, None)) ∨ ev = ev2 ∨ ev ∈ rest.
Proof.
  intros [->|Hin]%elem_of_cons; [by left|].
  apply elem_of_app in Hin as [Hin|Hin]; [right; left; by apply in_opened in Hin|].
  apply elem_of_cons in Hin as [->|Hin]; auto.
Qed.

Lemma not_setup_close (cl : call) a rest :
  Forall is_close rest → (cl, a) ∈ rest → is_setup cl → False.
Proof.
  intros Hcl Hin Hs. apply (in_closes _ _ Hcl) in Hin.
  unfold is_close in Hin. by destruct cl.
Qed.

(** A failed call of the set-up phase in the log: the path is the failing
    one for that call, with all that it guarantees. *)
Lemma path_setup_failure c w o w' evs sc e :
  run_path c w o w' evs →
  (sc, Some e) ∈ evs → is_setup sc →
  null_argument c = false ∧ bad_redirect c = false ∧
  o = Next (-1) ∧ errno w' = Z.pos e ∧ fds w' = fds w ∧
  sentinel_outputs c w' ∧
  (sc ≠ Fork → ∀ a, (Fork, a) ∉ evs) ∧
  (∀ path mode, sc = Access path mode →
     evs = [(Access (filename c) X_OK, Some e)]).
Proof.
  intros H Hin Hset. path_cases H.
  - by apply elem_of_nil in Hin.
  - apply list_elem_of_singleton in Hin. injection Hin as -> ->.
    split_and!; try done.
    intros _ a [=]%list_elem_of_singleton.
  - apply in_log in Hin as [[=]|[[p [=]]|[[= -> ->]|Hin]]];
      [|destruct (not_setup_close _ _ _ Hcl Hin Hset)].
    split_and!; try done.
    intros _ a [[=]|[[p [=]]|[[=]|Hin]]]%in_log.
    by apply (not_setup_close _ _ _ Hcl Hin).
  - apply in_log in Hin as [[=]|[[p [=]]|[[= -> ->]|Hin]]];
      [|destruct (not_setup_close _ _ _ Hcl Hin Hset)].
    split_and!; try done.
  - apply in_log in Hin as [[=]|[[p [=]]|[[=]|Hin]]].
    destruct (not_setup_close _ _ _ Hcl Hin Hset).
  - apply in_log in Hin as [[=]|[[p [=]]|[[=]|Hin]]].
    destruct (child_run _ _ _ _ _ _ _ _ Hrun Ht) as (h & _ & _ & _ & Hno & _).
    rewrite Forall_forall in Hno. by destruct (Hno _ Hin).
Qed.

(** A rejected request follows the first path. *)
Lemma path_rejected_inv c w o w' evs :
  null_argument c || bad_redirect c = true →
  run_path c w o w' evs →
  evs = [] ∧ errno w' = Z.pos EINVAL ∧ fds w' = fds w ∧
  (outputs_writable c → o = Next (-1) ∧ sentinel_outputs c w') ∧
  (¬ outputs_writable c → o = Halt NullStore).
Proof.
  intros Hr H. path_cases H; try done;
    rewrite Hnull, Hbad in Hr; done.
Qed.

(** An accepted request starts with the access check. *)
Lemma path_valid_head c w o w' evs :
  null_argument c = false → bad_redirect c = false →
  run_path c w o w' evs →
  ∃ a rest, evs = (Access (filename c) X_OK, a) :: rest.
Proof.
  intros Hn Hb H. path_cases H; try by eexists _, _.
  by rewrite Hn, Hb in Hrej.
Qed.

(** Only the parent's path returns 0. *)
Lemma path_success_inv c w w' evs :
  run_path c w (Next 0) w' evs →
  ∃ pin pout perr child lp li lo le cl,
    evs = (Access (filename c) X_OK, None) ::
          opened (requested_pipes c pin pout perr) ++ [(Fork, None)] ++ cl ∧
    side w = InParent child ∧
    childPid c = Some lp ∧ stdinFd c = Some li ∧
    stdoutFd c = Some lo ∧ stderrFd c = Some le ∧
    mem w' = <[le := handle (redirectStderr c) perr.1]>
               (<[lo := handle (redirectStdout c) pout.1]>
                  (<[li := handle (redirectStdin c) pin.2]>
                     (<[lp := Z.pos child]> (mem w)))) ∧
    Forall is_close cl ∧ closes_of cl = child_side c pin pout perr ∧
    NoDup (child_side c pin pout perr ++ parent_side c pin pout perr) ∧
    Forall (λ fd, 0 ≤ fd ∧ fd ∉ fds w) (parent_side c pin pout perr) ∧
    fds w' = fds w ∪ list_to_set (parent_side c pin pout perr).
Proof.
  intros H. remember (Next 0) as o eqn:Heqo. path_cases H; subst; try done.
  - destruct (decide (is_Some (childPid c) ∧ is_Some (stdinFd c) ∧
                      is_Some (stdoutFd c) ∧ is_Some (stderrFd c))) as [Hdec|Hdec].
    + by destruct (Hwr Hdec).
    + by specialize (Hnw Hdec).
  - by eexists pin, pout, perr, child, lp, li, lo, le, cl.
  - by destruct (child_run _ _ _ _ _ _ _ _ Hrun Ht) as (h & ? & _).
Qed.

(** ** Statements about whole calls *)

(** The four kinds of failure reported to the caller, each with the error
    it originates from: a rejected request, or a failed [access], [pipe]
    or [fork] in the log of the call. *)
Inductive failure_category :=
| InvalidArgument
| PreflightAccess
| PipeAllocation
| ForkFailure.

Inductive sync_failure (c : request) (evs : list event) :
    failure_category → Z → Prop :=
| fails_invalid :
    null_argument c || bad_redirect c = true →
    sync_failure c evs InvalidArgument (Z.pos EINVAL)
| fails_access path mode e :
    (Access path mode, Some e) ∈ evs →
    sync_failure c evs PreflightAccess (Z.pos e)
| fails_pipe p e :
    (Pipe p, Some e) ∈ evs →
    sync_failure c evs PipeAllocation (Z.pos e)
| fails_fork e :
    (Fork, Some e) ∈ evs →
    sync_failure c evs ForkFailure (Z.pos e).

(** The inputs the specification has rejected. *)
Definition rejected_input (c : request) : Prop :=
  filename c = None ∨ argv c = None ∨ envp c = None ∨
  ¬ strict_boolean (redirectStdin c) ∨
  ¬ strict_boolean (redirectStdout c) ∨
  ¬ strict_boolean (redirectStderr c).

(** The same request with other creation flags. *)
Definition with_flags (c : request) (flags : Z) : request :=
  Request (filename c) (argv c) (envp c) (cwd c)
          (redirectStdin c) (redirectStdout c) (redirectStderr c) flags
          (childPid c) (stdinFd c) (stdoutFd c) (stderrFd c).

(** Descriptors of a list that are not the sentinel; flags that are set. *)
Definition count_live (l : list Z) : nat :=
  length (List.filter (λ fd, negb (fd =? -1)) l).

Definition flags_set (c : request) : nat :=
  length (List.filter (λ flag, negb (flag =? 0))
            [redirectStdin c; redirectStdout c; redirectStderr c]).

Lemma strict_boolean_land z :
  Z.land z (Z.lnot 1) = 0 ↔ strict_boolean z.
Proof.
  rewrite <- Z.ldiff_land. change 1 with (Z.ones 1) at 1.
  rewrite Z.ldiff_ones_r by lia.
  rewrite Z.shiftl_mul_pow2, Z.shiftr_div_pow2 by lia.
  change (2 ^ 1) with 2. unfold strict_boolean. split.
  - intros H. assert (z / 2 = 0) as Hz by lia.
    apply Z.div_small_iff in Hz; lia.
  - intros [->| ->]; reflexivity.
Qed.

Lemma rejected_input_rejected c :
  rejected_input c → null_argument c || bad_redirect c = true.
Proof.
  unfold rejected_input, null_argument, bad_redirect.
  intros [->|[->|[->|H]]]; simpl; rewrite ?orb_true_r; try done.
  apply orb_true_iff. right.
  destruct (Z.land (redirectStdin c) (Z.lnot 1) =? 0) eqn:H1; [|done].
  destruct (Z.land (redirectStdout c) (Z.lnot 1) =? 0) eqn:H2; [|done].
  destruct (Z.land (redirectStderr c) (Z.lnot 1) =? 0) eqn:H3; [|done].
  apply Z.eqb_eq, strict_boolean_land in H1, H2, H3. tauto.
Qed.

Lemma path_failure_closes c w w' evs :
  run_path c w (Next (-1)) w' evs →
  ∀ fd, fd ∈ ends (pipes_of evs) → fd ∈ closes_of evs.
Proof.
  intros H. remember (Next (-1)) as o eqn:Heqo.
  path_cases H; subst; try done;
    rewrite ?log_closes, ?log_pipes; simpl (closes_of [_]);
    simpl (pipes_of [_]); simpl app;
    rewrite ?pipes_of_closes, ?app_nil_r by done;
    intros fd Hfd; try by rewrite Hperm.
  by destruct (child_run _ _ _ _ _ _ _ _ Hrun Ht) as (h & ? & _).
Qed.

(** A failure of one of the four kinds ends the call the same way. *)
Lemma sync_failure_outcome c w o w' evs k e :
  ForkAndExecProcess c w = (o, w') →
  trace w' = trace w ++ evs →
  outputs_writable c →
  sync_failure c evs k e →
  o = Next (-1) ∧ errno w' = e ∧ fds w' = fds w ∧ sentinel_outputs c w' ∧
  ∀ fd, fd ∈ ends (pipes_of evs) → fd ∈ closes_of evs.
Proof.
  intros Hrun Ht Hw Hfail.
  destruct (run_classified _ _ _ _ Hrun) as (evs' & Ht' & Hpath).
  rewrite Ht in Ht'. apply app_inv_head in Ht' as <-.
  assert (Hsetup : ∀ sc err, (sc, Some err) ∈ evs → is_setup sc →
            o = Next (-1) ∧ errno w' = Z.pos err ∧ fds w' = fds w ∧
            sentinel_outputs c w' ∧
            ∀ fd, fd ∈ ends (pipes_of evs) → fd ∈ closes_of evs).
  { intros sc err Hin Hsc.
    destruct (path_setup_failure _ _ _ _ _ _ _ Hpath Hin Hsc)
      as (_ & _ & -> & He & Hf & Hs & _).
    split_and!; try done. by apply (path_failure_closes _ _ _ _ Hpath). }
  destruct Hfail as [Hrej|path mode err Hin|p err Hin|err Hin];
    try by apply (Hsetup _ _ Hin).
  destruct (path_rejected_inv _ _ _ _ _ Hrej Hpath)
    as (-> & He & Hf & Hwr & _).
  destruct (Hwr Hw) as [-> Hs]. split_and!; done.
Qed.

(** C2: a call that fails synchronously (rejected request, or a failed
    [access], [pipe] or [fork]) and whose out pointers can be written
    returns -1, leaves the descriptor table as it found it, has closed
    every pipe end it opened, and has set the four out cells to -1. *)
Theorem C2_failure_releases_everything c w o w' evs k e :
  ForkAndExecProcess c w = (o, w') →
  trace w' = trace w ++ evs →
  outputs_writable c →
  sync_failure c evs k e →
  o = Next (-1) ∧
  fds w' = fds w ∧
  (∀ fd, fd ∈ ends (pipes_of evs) → fd ∈ closes_of evs) ∧
  load (childPid c) w' = Some (-1) ∧ load (stdinFd c) w' = Some (-1) ∧
  load (stdoutFd c) w' = Some (-1) ∧ load (stderrFd c) w' = Some (-1).
Proof.
  intros Hrun Ht Hw Hfail.
  destruct (sync_failure_outcome _ _ _ _ _ _ _ Hrun Ht Hw Hfail)
    as (Ho & _ & Hf & Hs & Hcl).
  by split_and!; try apply Hs.
Qed.

(** C3: when a [pipe] call fails the whole call is given up: it returns
    -1 with the error of that [pipe], every end of the pipes opened before
    it has been closed, the descriptor table is as it was, no [fork] was
    attempted and the out cells hold -1. *)
Theorem C3_pipe_failure_aborts c w o w' evs p e :
  ForkAndExecProcess c w = (o, w') →
  trace w' = trace w ++ evs →
  (Pipe p, Some e) ∈ evs →
  o = Next (-1) ∧ errno w' = Z.pos e ∧
  (∀ fd, fd ∈ ends (pipes_of evs) → fd ∈ closes_of evs) ∧
  fds w' = fds w ∧
  (∀ a, (Fork, a) ∉ evs) ∧
  load (childPid c) w' = Some (-1) ∧ load (stdinFd c) w' = Some (-1) ∧
  load (stdoutFd c) w' = Some (-1) ∧ load (stderrFd c) w' = Some (-1).
Proof.
  intros Hrun Ht Hin.
  destruct (run_classified _ _ _ _ Hrun) as (evs' & Ht' & Hpath).
  rewrite Ht in Ht'. apply app_inv_head in Ht' as <-.
  destruct (path_setup_failure _ _ _ _ _ _ _ Hpath Hin I)
    as (_ & _ & -> & He & Hf & Hs & Hfork & _).
  split_and!; try done; try apply Hs.
  - by apply (path_failure_closes _ _ _ _ Hpath).
  - by apply Hfork.
Qed.

(** C4: a request without executable path, argument vector or environment,
    or with a redirection flag other than 0 and 1, is refused with EINVAL
    before any system call: nothing is logged (no pipe, no fork), the
    descriptor table is untouched, and -1 is returned when the out
    pointers can be written. *)
Theorem C4_invalid_argument_touches_nothing c w o w' :
  rejected_input c →
  ForkAndExecProcess c w = (o, w') →
  trace w' = trace w ∧ fds w' = fds w ∧ errno w' = Z.pos EINVAL ∧
  (outputs_writable c → o = Next (-1)).
Proof.
  intros Hrej%rejected_input_rejected Hrun.
  destruct (run_classified _ _ _ _ Hrun) as (evs & Ht & Hpath).
  destruct (path_rejected_inv _ _ _ _ _ Hrej Hpath)
    as (-> & He & Hf & Hwr & _).
  rewrite app_nil_r in Ht. split_and!; try done.
  intros Hw. by destruct (Hwr Hw).
Qed.

(** C5: for an accepted request the first system call is
    [access(filename, X_OK)], so it precedes any [fork]; when it fails the
    call returns -1 with the error of [access], having made no other
    system call (no pipe, no child) and left the descriptor table alone. *)
Theorem C5_preflight_access c w o w' evs :
  null_argument c = false → bad_redirect c = false →
  ForkAndExecProcess c w = (o, w') →
  trace w' = trace w ++ evs →
  (∃ a rest, evs = (Access (filename c) X_OK, a) :: rest) ∧
  (∀ path mode e, (Access path mode, Some e) ∈ evs →
     o = Next (-1) ∧ errno w' = Z.pos e ∧ fds w' = fds w ∧
     evs = [(Access (filename c) X_OK, Some e)]).
Proof.
  intros Hn Hb Hrun Ht.
  destruct (run_classified _ _ _ _ Hrun) as (evs' & Ht' & Hpath).
  rewrite Ht in Ht'. apply app_inv_head in Ht' as <-.
  split; [by apply (path_valid_head _ _ _ _ _ Hn Hb Hpath)|].
  intros path mode e Hin.
  destruct (path_setup_failure _ _ _ _ _ _ _ Hpath Hin I)
    as (_ & _ & -> & He & Hf & _ & _ & Honly).
  split_and!; try done. by apply (Honly path mode).
Qed.

(** C6: on a synchronous failure the [errno] the caller finds is the error
    of the operation that failed (EINVAL for a rejected request, else the
    error of the failed [access], [pipe] or [fork]), whatever the [close]
    calls of the cleanup answered in between. *)
Theorem C6_errno_is_originating_error c w o w' evs k e :
  ForkAndExecProcess c w = (o, w') →
  trace w' = trace w ++ evs →
  outputs_writable c →
  sync_failure c evs k e →
  o = Next (-1) ∧ errno w' = e.
Proof.
  intros Hrun Ht Hw Hfail.
  destruct (sync_failure_outcome _ _ _ _ _ _ _ Hrun Ht Hw Hfail)
    as (Ho & He & _).
  done.
Qed.

(** C8: on every path the descriptors passed to [close] are pairwise
    distinct and are ends of pipes opened during the call, hence never the
    sentinel; and [CloseIfOpen] does nothing on a negative descriptor. *)
Theorem C8_each_descriptor_closed_once c w o w' evs :
  ForkAndExecProcess c w = (o, w') →
  trace w' = trace w ++ evs →
  NoDup (closes_of evs) ∧
  (∀ fd, fd ∈ closes_of evs → fd ∈ ends (pipes_of evs) ∧ 0 ≤ fd) ∧
  (∀ fd w0, fd < 0 → CloseIfOpen fd w0 = (Next tt, w0)).
Proof.
  intros Hrun Ht.
  destruct (run_classified _ _ _ _ Hrun) as (evs' & Ht' & Hpath).
  rewrite Ht in Ht'. apply app_inv_head in Ht' as <-.
  destruct (path_log _ _ _ _ _ Hpath) as (Hnd & Hsub & Hnn).
  split_and!; try done.
  - intros fd Hfd. split; [by apply Hsub|].
    rewrite Forall_forall in Hnn. by apply Hnn, Hsub.
  - intros fd w0 Hfd. unfold CloseIfOpen.
    by rewrite (proj2 (Z.leb_gt 0 fd)).
Qed.

Lemma count_live_handles c pin pout perr :
  Forall (λ fd, 0 ≤ fd) (parent_side c pin pout perr) →
  count_live [handle (redirectStdin c) pin.2; handle (redirectStdout c) pout.1;
              handle (redirectStderr c) perr.1] = flags_set c.
Proof.
  unfold parent_side, count_live, flags_set, handle, wanted. intros H.
  destruct (redirectStdin c =? 0) eqn:H1, (redirectStdout c =? 0) eqn:H2,
    (redirectStderr c =? 0) eqn:H3; simpl in *; rewrite ?H1, ?H2, ?H3; simpl;
    repeat match goal with
           | H : Forall _ (_ :: _) |- _ => apply Forall_cons in H as [? H]
           end;
    repeat match goal with
           | |- context [?x =? -1] =>
               rewrite (proj2 (Z.eqb_neq x (-1))) by lia
           end;
    reflexivity.
Qed.

(** C1: a call that returns 0 ran in the parent with distinct out cells
    that now hold the child's id and, for each stream, the parent-side end
    of its pipe (the write end for stdin, the read end for stdout and
    stderr) when its flag is set and -1 when it is not, so as many live
    descriptors as flags set; the pipes opened are those of the flags set;
    the [close] calls made are those of the child-side ends; and the
    descriptor table is the one before the call plus exactly the ends
    handed back, which are new to it. *)
Theorem C1_success_handles c w w' evs :
  ForkAndExecProcess c w = (Next 0, w') →
  trace w' = trace w ++ evs →
  NoDup [childPid c; stdinFd c; stdoutFd c; stderrFd c] →
  ∃ pin pout perr child,
    side w = InParent child ∧
    pipes_of evs = requested_pipes c pin pout perr ∧
    load (childPid c) w' = Some (Z.pos child) ∧
    load (stdinFd c) w' = Some (handle (redirectStdin c) pin.2) ∧
    load (stdoutFd c) w' = Some (handle (redirectStdout c) pout.1) ∧
    load (stderrFd c) w' = Some (handle (redirectStderr c) perr.1) ∧
    count_live [handle (redirectStdin c) pin.2;
                handle (redirectStdout c) pout.1;
                handle (redirectStderr c) perr.1] = flags_set c ∧
    closes_of evs = child_side c pin pout perr ∧
    fds w' = fds w ∪ list_to_set (parent_side c pin pout perr) ∧
    Forall (λ fd, 0 ≤ fd ∧ fd ∉ fds w) (parent_side c pin pout perr) ∧
    NoDup (parent_side c pin pout perr).
Proof.
  intros Hrun Ht Hdistinct.
  destruct (run_classified _ _ _ _ Hrun) as (evs' & Ht' & Hpath).
  rewrite Ht in Ht'. apply app_inv_head in Ht' as <-.
  destruct (path_success_inv _ _ _ _ Hpath)
    as (pin & pout & perr & child & lp & li & lo & le & cl & -> & Hside
        & Hlp & Hli & Hlo & Hle & Hmem & Hcl & Hco & Hnd & Hkeep & Hfds).
  exists pin, pout, perr, child.
  rewrite Hlp, Hli, Hlo, Hle in Hdistinct |- *.
  assert (lp ≠ li ∧ lp ≠ lo ∧ lp ≠ le ∧ li ≠ lo ∧ li ≠ le ∧ lo ≠ le)
    as (? & ? & ? & ? & ? & ?).
  { rewrite !NoDup_cons, !elem_of_cons in Hdistinct. naive_solver. }
  rewrite log_closes, log_pipes. simpl (closes_of [_]). simpl (pipes_of [_]).
  rewrite pipes_of_closes, app_nil_r by done. simpl app.
  unfold load. simpl. rewrite Hmem.
  split_and!; try done.
  - by rewrite !lookup_insert_ne, lookup_insert_eq by done.
  - by rewrite !lookup_insert_ne, lookup_insert_eq by done.
  - by rewrite lookup_insert_ne, lookup_insert_eq by done.
  - by rewrite lookup_insert_eq.
  - apply count_live_handles. eapply Forall_impl; [exact Hkeep|].
    by intros fd [? _].
  - by apply NoDup_app in Hnd as (_ & _ & Hnd).
Qed.

(** A step that ends the child with [_exit]: it is not a [close], its
    call failed, and the status is the error of that call. *)
Lemma perform_exit s w status w' :
  perform s w = (Halt (Exited status), w') →
  ∃ evs0 err,
    trace w' = trace w ++ evs0 ++
               [(step_call s, Some err); (ExitCall status, None)] ∧
    status = Z.pos err ∧ (∀ fd, s ≠ CloseEnd fd).
Proof.
  assert (Hretried : ∀ c eff,
    step_call s = c → (∀ fd, s ≠ CloseEnd fd) →
    (a ← attempt c eff; or_abort a) w = (Halt (Exited status), w') →
    ∃ evs0 err,
      trace w' = trace w ++ evs0 ++
                 [(step_call s, Some err); (ExitCall status, None)] ∧
      status = Z.pos err ∧ (∀ fd, s ≠ CloseEnd fd)).
  { intros c eff Hc Hnc Hrun.
    destruct (attempt_log c eff w) as (a & w1 & evs & Heq & Ht & _).
    rewrite (bind_next _ _ _ _ _ Heq) in Hrun.
    destruct a as [e|]; simpl in Hrun; [|done].
    injection Hrun as <- <-. exists evs, e. simpl.
    rewrite Ht, Hc, <- !app_assoc. done. }
  destruct s as [fd|oldfd newfd|dir| |path args env]; simpl.
  - done.
  - by apply Hretried.
  - by apply Hretried.
  - by apply Hretried.
  - clear Hretried. unfold answered, sys_exit.
    destruct (next_answer w) as [e|] eqn:Ha; [|done].
    intros [= <- <-]. exists [], e. simpl. rewrite <- app_assoc. done.
Qed.

Lemma run_steps_exit steps w status w' :
  run_steps steps w = (Halt (Exited status), w') →
  ∃ evs0 s err,
    s ∈ steps ∧ (∀ fd, s ≠ CloseEnd fd) ∧ status = Z.pos err ∧
    trace w' = trace w ++ evs0 ++
               [(step_call s, Some err); (ExitCall (Z.pos err), None)].
Proof.
  revert w. induction steps as [|s rest IH]; intros w; [done|].
  cbn [run_steps]. unfold mbind, M_bind.
  destruct (perform s w) as [[[]|h] w1] eqn:Hs.
  - intros Hrun. destruct (IH _ Hrun) as (evs0 & s' & err & Hin & Hnc & -> & Ht).
    destruct (perform_log _ _ _ _ Hs) as (evs1 & Ht1 & _).
    exists (evs1 ++ evs0), s', err. split_and!; try done.
    + apply elem_of_cons. by right.
    + by rewrite Ht, Ht1, <- !app_assoc.
  - intros [= -> <-].
    destruct (perform_exit _ _ _ _ Hs) as (evs0 & err & Ht & -> & Hnc).
    exists evs0, s, err. split_and!; try done. apply elem_of_cons. by left.
Qed.

(** C7: on the child's side of a successful [fork] the rest of the call is
    the run of [child_steps]: close the parent-side ends; [dup2] each
    requested pipe end onto 0, 1, 2; close the superseded ends; [chdir] if
    a directory was given; [setsid] if the flag is set; [execve].  The
    [dup2], [chdir] and [setsid] steps pass over interrupted attempts
    ([attempt]).  The child never returns to the caller: it ends in
    [execve] succeeding or, a step other than a [close] having failed, in
    [_exit] called right after the failed call with its error as status. *)
Theorem C7_child_steps_in_order c w o w' evs me :
  ForkAndExecProcess c w = (o, w') →
  trace w' = trace w ++ evs →
  side w = InChild me →
  (Fork, None) ∈ evs →
  ∃ pin pout perr w1 cevs h,
    evs = (Access (filename c) X_OK, None) ::
          opened (requested_pipes c pin pout perr) ++ [(Fork, None)] ++ cevs ∧
    trace w1 = trace w ++ (Access (filename c) X_OK, None) ::
               opened (requested_pipes c pin pout perr) ++ [(Fork, None)] ∧
    run_steps (child_steps c pin pout perr) w1 = (Halt h, w') ∧
    o = Halt h ∧
    (h = Execed (filename c) (argv c) (envp c) ∨
     ∃ evs0 s err,
       h = Exited (Z.pos err) ∧
       s ∈ child_steps c pin pout perr ∧ (∀ fd, s ≠ CloseEnd fd) ∧
       cevs = evs0 ++ [(step_call s, Some err); (ExitCall (Z.pos err), None)]).
Proof.
  intros Hcall Hlog Hchild Hin.
  destruct (run_classified _ _ _ _ Hcall) as (evs' & Ht' & Hpath).
  rewrite Hlog in Ht'. apply app_inv_head in Ht' as <-.
  path_cases Hpath.
  - by apply elem_of_nil in Hin.
  - by apply list_elem_of_singleton in Hin.
  - apply in_log in Hin as [[=]|[[p [=]]|[[=]|Hin]]].
    by destruct (not_setup_close _ _ _ Hcl Hin).
  - apply in_log in Hin as [[=]|[[p [=]]|[[=]|Hin]]].
    by destruct (not_setup_close _ _ _ Hcl Hin).
  - congruence.
  - destruct (child_run _ _ _ _ _ _ _ _ Hrun Ht)
      as (h & -> & Hsteps & Hh & _).
    exists pin, pout, perr, w1, cevs, h. split_and!; try done.
    destruct Hh as [[status ->]| ->]; [right|by left].
    destruct (run_steps_exit _ _ _ _ Hsteps) as (evs0 & s & err & Hs & Hnc & -> & Hte).
    exists evs0, s, err. split_and!; try done.
    rewrite Ht in Hte. by apply app_inv_head in Hte.
Qed.

Lemma with_flags_same_run c flags w :
  Z.testbit flags 0 = Z.testbit (creationFlags c) 0 →
  ForkAndExecProcess (with_flags c flags) w = ForkAndExecProcess c w.
Proof.
  intros Hbit. destruct c. unfold with_flags.
  unfold ForkAndExecProcess, child_branch. cbn [creationFlags].
  rewrite !land_session, Hbit. reflexivity.
Qed.

Lemma setup_steps_no_exec c pin pout perr path args env :
  ReplaceImage path args env ∉ child_setup_steps c pin pout perr.
Proof.
  intros Hin. unfold child_setup_steps, wanted in Hin.
  repeat (apply elem_of_app in Hin as [Hin|Hin]);
    try (apply list_elem_of_fmap in Hin as (? & ? & ?); done);
    repeat match type of Hin with
           | context [if ?b then _ else _] => destruct b
           | context [match ?b with _ => _ end] => destruct b
           end;
    repeat (apply elem_of_cons in Hin as [Hin|Hin]; try done);
    by apply elem_of_nil in Hin.
Qed.

Lemma session_step c pin pout perr :
  NewSession ∈ child_steps c pin pout perr ↔
  Z.testbit (creationFlags c) 0 = true.
Proof.
  rewrite child_steps_split. unfold child_setup_steps, wanted. split.
  - intros Hin.
    repeat (apply elem_of_app in Hin as [Hin|Hin]);
      try (apply list_elem_of_fmap in Hin as (? & ? & ?); done);
      repeat match type of Hin with
             | context [if ?b then _ else _] => destruct b eqn:?
             | context [match ?b with _ => _ end] => destruct b eqn:?
             end;
      repeat (apply elem_of_cons in Hin as [Hin|Hin]; try done);
      by apply elem_of_nil in Hin.
  - intros ->. rewrite !elem_of_app. left. do 4 right.
    apply list_elem_of_singleton. done.
Qed.

(** The steps before the one at which [execve] succeeded are all the
    steps of the set-up. *)
Lemma steps_before_exec (setup pre post : list step) last path args env :
  (∀ p a e, ReplaceImage p a e ∉ setup) →
  setup ++ [last] = pre ++ ReplaceImage path args env :: post →
  ∀ s, s ∈ setup → s ∈ pre.
Proof.
  revert pre. induction setup as [|x setup IH]; intros pre Hno Heq s Hs.
  - by apply elem_of_nil in Hs.
  - destruct pre as [|y pre]; simpl in Heq.
    + injection Heq as -> _. destruct (Hno path args env).
      apply elem_of_cons. by left.
    + injection Heq as -> Heq. apply elem_of_cons in Hs as [->|Hs].
      * apply elem_of_cons. by left.
      * apply elem_of_cons. right. apply (IH pre); try done.
        intros p a e Hin. apply (Hno p a e). apply elem_of_cons. by right.
Qed.

(** C9: of the creation flags only bit 0 is looked at.  Changing any other
    bit changes nothing of the call (outcome and final world are equal, so
    no value of the flags is rejected); a [setsid] call is logged only
    when bit 0 is set; and when bit 0 is set a child that reaches a
    successful [execve] has called [setsid] before. *)
Theorem C9_only_session_bit c w :
  (∀ flags,
     Z.testbit flags 0 = Z.testbit (creationFlags c) 0 →
     ForkAndExecProcess (with_flags c flags) w = ForkAndExecProcess c w) ∧
  (∀ o w' evs,
     ForkAndExecProcess c w = (o, w') →
     trace w' = trace w ++ evs →
     ((∃ a, (Setsid, a) ∈ evs) → Z.testbit (creationFlags c) 0 = true) ∧
     (Z.testbit (creationFlags c) 0 = true →
      o = Halt (Execed (filename c) (argv c) (envp c)) →
      ∃ a, (Setsid, a) ∈ evs)).
Proof.
  split; [intros flags; apply with_flags_same_run|].
  intros o w' evs Hcall Hlog.
  destruct (run_classified _ _ _ _ Hcall) as (evs' & Ht' & Hpath).
  rewrite Hlog in Ht'. apply app_inv_head in Ht' as <-.
  assert (Hnc : ∀ a cl, Forall is_close cl → (Setsid, a) ∉ cl).
  { intros a cl Hcl Hin. by apply (in_closes _ _ Hcl) in Hin. }
  split.
  - intros [a Hin]. path_cases Hpath.
    + by apply elem_of_nil in Hin.
    + by apply list_elem_of_singleton in Hin.
    + apply in_log in Hin as [[=]|[[p [=]]|[[=]|Hin]]]. by destruct (Hnc a _ Hcl).
    + apply in_log in Hin as [[=]|[[p [=]]|[[=]|Hin]]]. by destruct (Hnc a _ Hcl).
    + apply in_log in Hin as [[=]|[[p [=]]|[[=]|Hin]]]. by destruct (Hnc a _ Hcl).
    + apply in_log in Hin as [[=]|[[p [=]]|[[=]|Hin]]].
      destruct (child_run _ _ _ _ _ _ _ _ Hrun Ht) as (h & _ & Hsteps & _).
      destruct (run_steps_log _ _ _ _ Hsteps) as (evs0 & Ht0 & Hby & _).
      rewrite Ht in Ht0. apply app_inv_head in Ht0 as <-.
      rewrite Forall_forall in Hby.
      destruct (Hby _ Hin) as (s & Hs & [Hev|[st Hev]]); [|done].
      simpl in Hev. apply (session_step c pin pout perr).
      by destruct s.
  - intros Hbit ->. path_cases Hpath; try done.
    + destruct (decide (is_Some (childPid c) ∧ is_Some (stdinFd c) ∧
                        is_Some (stdoutFd c) ∧ is_Some (stderrFd c))) as [Hd|Hd].
      * by destruct (Hwr Hd).
      * by specialize (Hnw Hd).
    + destruct (child_run _ _ _ _ _ _ _ _ Hrun Ht) as (h & [= <-] & Hsteps & _).
      destruct (run_steps_log _ _ _ _ Hsteps)
        as (evs0 & Ht0 & _ & _ & _ & _ & _ & Hhalt).
      rewrite Ht in Ht0. apply app_inv_head in Ht0 as <-.
      destruct (Hhalt _ eq_refl)
        as [[st [=]]|(p & a & e & pre & post & [= <- <- <-] & Hsplit & Hdone)].
      rewrite child_steps_split in Hsplit.
      assert (Hin : NewSession ∈ pre).
      { apply (steps_before_exec _ _ _ _ _ _ _
                 (setup_steps_no_exec c pin pout perr) Hsplit).
        apply (session_step c pin pout perr) in Hbit.
        rewrite child_steps_split in Hbit.
        by apply elem_of_app in Hbit as [?|[=]%list_elem_of_singleton]. }
      destruct (Hdone _ Hin) as [a0 Ha0]. exists a0.
      apply elem_of_cons. right. apply elem_of_app. right.
      apply elem_of_app. by right.
Qed.

(** A null out pointer, everything else in order or not: the call stores
    through it and does not return. *)
Lemma null_output_faults c w :
  childPid c = None ∨ stdinFd c = None ∨ stdoutFd c = None ∨ stderrFd c = None →
  ∃ w', ForkAndExecProcess c w = (Halt NullStore, w') ∧ trace w' = trace w.
Proof.
  intros Hnull.
  destruct (ForkAndExecProcess c w) as [o w'] eqn:Hcall. exists w'.
  destruct (run_classified _ _ _ _ Hcall) as (evs & Ht & Hpath).
  assert (Hrej : null_argument c || bad_redirect c = true).
  { unfold null_argument. destruct Hnull as [->|[->|[->| ->]]]; simpl;
      rewrite ?orb_true_r; done. }
  destruct (path_rejected_inv _ _ _ _ _ Hrej Hpath) as (-> & _ & _ & _ & Hnw).
  rewrite app_nil_r in Ht. split; [|done]. f_equal. apply Hnw.
  intros (Hp & Hi & Ho & He).
  destruct Hnull as [H|[H|[H|H]]]; rewrite H in *;
    by match goal with H : is_Some None |- _ => destruct H end.
Qed.

(** ** Further properties of the helpers and of whole calls *)

(** *** The retry loop *)

Lemma skip_interrupted_table c s w :
  fds (skip_interrupted c s w) = fds w ∧ pid (skip_interrupted c s w) = pid w.
Proof.
  revert w. induction s as [|[e|] s IH]; intros w; simpl; try done.
  destruct (e =? EINTR)%positive; [|done].
  by destruct (IH (World (Z.pos EINTR) (fds w) (mem w) (pid w) (side w) s
                         (trace w ++ [(c, Some EINTR)]))) as [-> ->].
Qed.

(** After the interrupted attempts the next answer is not an
    interruption. *)
Lemma skip_interrupted_settled c s w :
  script w = s → next_answer (skip_interrupted c s w) ≠ Some EINTR.
Proof.
  revert w. induction s as [|[e|] s IH]; intros w Hs; simpl.
  - unfold next_answer. by rewrite Hs.
  - destruct (e =? EINTR)%positive eqn:He; [by apply IH|].
    unfold next_answer. rewrite Hs. simpl. intros [= ->].
    by rewrite Pos.eqb_refl in He.
  - unfold next_answer. by rewrite Hs.
Qed.

(** [k] interruptions followed by another answer: the attempts are
    logged one by one and the other answer is the next. *)
Lemma skip_interrupted_replicate c k a rest w :
  script w = replicate k (Some EINTR) ++ a :: rest →
  a ≠ Some EINTR →
  script (skip_interrupted c (script w) w) = a :: rest ∧
  trace (skip_interrupted c (script w) w) =
    trace w ++ replicate k (c, Some EINTR).
Proof.
  revert w. induction k as [|k IH]; intros w Hs Ha; rewrite Hs.
  - simpl. rewrite app_nil_r. destruct a as [e|]; simpl; [|done].
    destruct (e =? EINTR)%positive eqn:He; [|done].
    apply Pos.eqb_eq in He as ->. done.
  - cbn [replicate app skip_interrupted]. rewrite Pos.eqb_refl.
    destruct (IH (World (Z.pos EINTR) (fds w) (mem w) (pid w) (side w)
                        (replicate k (Some EINTR) ++ a :: rest)
                        (trace w ++ [(c, Some EINTR)])) eq_refl Ha)
      as [Hs' Ht'].
    cbn [script trace] in Hs', Ht'. rewrite Hs', Ht', <- app_assoc. done.
Qed.

Lemma Dup2WithInterruptedRetry_simple oldfd newfd w :
  0 ≤ newfd →
  Dup2WithInterruptedRetry oldfd newfd w =
    simple_call (Dup2 oldfd newfd) (λ _, newfd) (λ t, {[newfd]} ∪ t)
      (skip_interrupted (Dup2 oldfd newfd) (script w) w).
Proof.
  intros Hnew. unfold Dup2WithInterruptedRetry, while_interrupted.
  rewrite (retry_interrupted_ext _ _ _ _ (sys_dup2_simple oldfd newfd)).
  by apply retry_interrupted_simple.
Qed.

(** [Dup2WithInterruptedRetry] repeats [dup2] as long as it is
    interrupted: after [k] interruptions it returns what the next answer
    gives, [newfd] or -1, having made [k + 1] calls. *)
Theorem Dup2WithInterruptedRetry_retries oldfd newfd k a rest w :
  0 ≤ newfd →
  script w = replicate k (Some EINTR) ++ a :: rest →
  a ≠ Some EINTR →
  ∃ w', Dup2WithInterruptedRetry oldfd newfd w = (Next (ret_of a newfd), w') ∧
        trace w' = trace w ++ replicate k (Dup2 oldfd newfd, Some EINTR) ++
                   [(Dup2 oldfd newfd, a)] ∧
        script w' = rest ∧
        fds w' = match a with
                 | None => {[newfd]} ∪ fds w
                 | Some _ => fds w
                 end ∧
        mem w' = mem w.
Proof.
  intros Hnew Hs Ha.
  rewrite Dup2WithInterruptedRetry_simple by done.
  destruct (skip_interrupted_replicate (Dup2 oldfd newfd) k a rest w Hs Ha)
    as [Hs1 Ht1].
  destruct (skip_interrupted_table (Dup2 oldfd newfd) (script w) w) as [Hf1 _].
  destruct (skip_interrupted_log (Dup2 oldfd newfd) (script w) w)
    as (_ & _ & _ & Hm1 & _).
  unfold simple_call, answered, next_answer. rewrite Hs1. cbn [hd tl].
  eexists. split; [reflexivity|]. cbn [trace script fds mem].
  rewrite Ht1, Hf1, Hm1, <- app_assoc. done.
Qed.

(** [Dup2WithInterruptedRetry] never hands an interruption to its caller:
    it returns [newfd], or -1 with an error other than [EINTR] in
    [errno]. *)
Theorem Dup2WithInterruptedRetry_settles oldfd newfd w o w' :
  0 ≤ newfd →
  Dup2WithInterruptedRetry oldfd newfd w = (o, w') →
  o = Next newfd ∨
  (o = Next (-1) ∧ ∃ e, errno w' = Z.pos e ∧ e ≠ EINTR).
Proof.
  intros Hnew. rewrite Dup2WithInterruptedRetry_simple by done.
  pose proof (skip_interrupted_settled (Dup2 oldfd newfd) (script w) w eq_refl)
    as Hne.
  unfold simple_call, answered.
  destruct (next_answer _) as [e|]; intros [= <- <-]; [right|by left].
  split; [done|]. exists e. split; [done|]. by intros ->.
Qed.

(** *** Validation of the flags *)

(** The test [(flag & ~1) != 0] lets through exactly the values 0 and 1,
    for each of the three redirection flags. *)
Theorem redirect_flags_checked c :
  bad_redirect c = false ↔
  strict_boolean (redirectStdin c) ∧ strict_boolean (redirectStdout c) ∧
  strict_boolean (redirectStderr c).
Proof.
  unfold bad_redirect. rewrite !orb_false_iff, !negb_false_iff, !Z.eqb_eq,
    !strict_boolean_land. tauto.
Qed.

(** *** Calls that return *)

(** The calls made in the caller's own process. *)
Definition caller_call (cl : call) : Prop :=
  match cl with
  | Access _ _ | Pipe _ | Fork | Close _ => True
  | _ => False
  end.

Lemma closes_caller_calls cl :
  Forall is_close cl → Forall (λ ev : event, caller_call ev.1) cl.
Proof.
  intros H. eapply Forall_impl; [exact H|].
  intros [[] a]; unfold is_close; simpl; tauto.
Qed.

Lemma opened_caller_calls ps :
  Forall (λ ev : event, caller_call ev.1) (opened ps).
Proof. unfold opened. apply Forall_fmap, Forall_true. by intros p. Qed.

Lemma setup_log_caller_calls (ev1 ev2 : event) ps cl :
  caller_call ev1.1 → caller_call ev2.1 → Forall is_close cl →
  Forall (λ ev : event, caller_call ev.1) (ev1 :: opened ps ++ [ev2] ++ cl).
Proof.
  intros H1 H2 Hcl. apply Forall_cons. split; [done|].
  apply Forall_app. split; [apply opened_caller_calls|].
  apply Forall_cons. split; [done|]. by apply closes_caller_calls.
Qed.

(** A returning call yields 0 or -1 and has followed one of the first
    five paths. *)
Lemma returned_path c w r w' evs :
  run_path c w (Next r) w' evs →
  (r = 0 ∨ r = -1) ∧ fds w ⊆ fds w' ∧
  Forall (λ ev : event, caller_call ev.1) evs ∧
  (r = 0 ↔ (Fork, None) ∈ evs).
Proof.
  intros H. remember (Next r) as o eqn:Heqo. path_cases H; subst.
  - destruct (decide (is_Some (childPid c) ∧ is_Some (stdinFd c) ∧
                      is_Some (stdoutFd c) ∧ is_Some (stderrFd c))) as [Hdec|Hdec];
      [|by specialize (Hnw Hdec)].
    destruct (Hwr Hdec) as [[= ->] _].
    split_and!; [by right|by rewrite Hfds|constructor|].
    split; [done|by intros ?%elem_of_nil].
  - injection Ho as ->.
    split_and!; [by right|by rewrite Hfds|by repeat constructor|].
    split; [done|by intros [=]%list_elem_of_singleton].
  - injection Ho as ->.
    split_and!; [by right|by rewrite Hfds|by apply setup_log_caller_calls|].
    split; [done|]. intros [[=]|[[p [=]]|[[=]|Hin]]]%in_log.
    by destruct (not_setup_close _ _ _ Hcl Hin).
  - injection Ho as ->.
    split_and!; [by right|by rewrite Hfds|by apply setup_log_caller_calls|].
    split; [done|]. intros [[=]|[[p [=]]|[[=]|Hin]]]%in_log.
    by destruct (not_setup_close _ _ _ Hcl Hin).
  - injection Ho as ->.
    split_and!; [by left|rewrite Hfds; set_solver
                |by apply setup_log_caller_calls|].
    split; [|done]. intros _. apply elem_of_cons. right.
    apply elem_of_app. right. apply elem_of_cons. by left.
  - by destruct (child_run _ _ _ _ _ _ _ _ Hrun Ht) as (h & ? & _).
Qed.

(** The call returns 0 exactly when it has created a child: a caller that
    gets -1 has no child to wait for, and one that gets 0 has one. *)
Theorem returns_zero_iff_child_created c w r w' evs :
  ForkAndExecProcess c w = (Next r, w') →
  trace w' = trace w ++ evs →
  (r = 0 ∨ r = -1) ∧ (r = 0 ↔ (Fork, None) ∈ evs).
Proof.
  intros Hcall Hlog.
  destruct (run_classified _ _ _ _ Hcall) as (evs' & Ht' & Hpath).
  rewrite Hlog in Ht'. apply app_inv_head in Ht' as <-.
  by destruct (returned_path _ _ _ _ _ Hpath) as (Hr & _ & _ & Hiff).
Qed.

(** A call that returns has left the calling process as it was but for
    the pipes: it made only [access], [pipe], [fork] and [close] calls
    (no [dup2], [chdir], [setsid], [execve] or [_exit]), and every
    descriptor open before the call is still open. *)
Theorem returning_call_spares_caller c w r w' evs :
  ForkAndExecProcess c w = (Next r, w') →
  trace w' = trace w ++ evs →
  Forall (λ ev : event, caller_call ev.1) evs ∧ fds w ⊆ fds w'.
Proof.
  intros Hcall Hlog.
  destruct (run_classified _ _ _ _ Hcall) as (evs' & Ht' & Hpath).
  rewrite Hlog in Ht'. apply app_inv_head in Ht' as <-.
  by destruct (returned_path _ _ _ _ _ Hpath) as (_ & Hsub & Hall & _).
Qed.

(** The only way the call ends without returning, null out pointers
    apart, is in the child; and the child never stores anything in the
    caller's cells. *)
Theorem child_never_stores c w h w' :
  ForkAndExecProcess c w = (Halt h, w') →
  h ≠ NullStore →
  (∃ self, side w = InChild self) ∧ mem w' = mem w.
Proof.
  intros Hcall Hh.
  destruct (run_classified _ _ _ _ Hcall) as (evs & _ & Hpath).
  remember (Halt h) as o eqn:Heqo. path_cases Hpath; subst; try done.
  - destruct (decide (is_Some (childPid c) ∧ is_Some (stdinFd c) ∧
                      is_Some (stdoutFd c) ∧ is_Some (stderrFd c))) as [Hdec|Hdec].
    + by destruct (Hwr Hdec).
    + specialize (Hnw Hdec). congruence.
  - split; [by eexists|].
    destruct (then_return_inv _ _ _ _ _ Hrun) as [[_ [=]]|(h' & Hr & _)].
    destruct (run_steps_log _ _ _ _ Hr) as (cevs' & _ & _ & _ & Hm & _).
    congruence.
Qed.

(** With no redirection asked for, a successful call is one [access] and
    one [fork]: no pipe is made, nothing is closed, and the descriptor
    table is untouched. *)
Theorem no_redirection_only_forks c w w' evs :
  redirectStdin c = 0 → redirectStdout c = 0 → redirectStderr c = 0 →
  ForkAndExecProcess c w = (Next 0, w') →
  trace w' = trace w ++ evs →
  evs = [(Access (filename c) X_OK, None); (Fork, None)] ∧ fds w' = fds w.
Proof.
  intros Hi Ho He Hcall Hlog.
  destruct (run_classified _ _ _ _ Hcall) as (evs' & Ht' & Hpath).
  rewrite Hlog in Ht'. apply app_inv_head in Ht' as <-.
  destruct (path_success_inv _ _ _ _ Hpath)
    as (pin & pout & perr & child & lp & li & lo & le & cl & -> & _ & _ & _
        & _ & _ & _ & Hcl & Hco & _ & _ & Hfds).
  unfold requested_pipes, child_side, parent_side, wanted in *.
  rewrite Hi, Ho, He in *. simpl in *.
  apply (only_closes _ Hcl) in Hco as ->.
  split; [done|]. rewrite Hfds. set_solver.
Qed.

Lemma length_parent_side c pin pout perr :
  length (parent_side c pin pout perr) = flags_set c.
Proof.
  unfold parent_side, flags_set, wanted.
  destruct (redirectStdin c =? 0) eqn:H1, (redirectStdout c =? 0) eqn:H2,
    (redirectStderr c =? 0) eqn:H3; simpl; by rewrite ?H1, ?H2, ?H3.
Qed.

(** On success the caller's descriptor table has grown by exactly one
    descriptor for each redirection flag set, and has lost none. *)
Theorem success_grows_table_by_flags c w w' :
  ForkAndExecProcess c w = (Next 0, w') →
  fds w ⊆ fds w' ∧ size (fds w' ∖ fds w) = flags_set c.
Proof.
  intros Hcall.
  destruct (run_classified _ _ _ _ Hcall) as (evs & _ & Hpath).
  destruct (path_success_inv _ _ _ _ Hpath)
    as (pin & pout & perr & child & lp & li & lo & le & cl & _ & _ & _ & _
        & _ & _ & _ & _ & _ & Hnd & Hfresh & Hfds).
  apply NoDup_app in Hnd as (_ & _ & Hnd).
  split; [rewrite Hfds; set_solver|].
  rewrite <- (length_parent_side c pin pout perr).
  rewrite <- (size_list_to_set (C:=gset Z) _ Hnd). f_equal.
  rewrite Hfds. rewrite Forall_forall in Hfresh.
  apply set_eq. intros x.
  rewrite elem_of_difference, elem_of_union, elem_of_list_to_set.
  split; [tauto|]. intros Hx. split; [by right|]. by apply Hfresh.
Qed.

(** A refused [pipe] call is the last call of the set-up: it leaves its
    array as it was, no further pipe is tried, and what follows are the
    closes of the ends opened before it. *)
Theorem refused_pipe_ends_setup c w o w' evs p e :
  ForkAndExecProcess c w = (o, w') →
  trace w' = trace w ++ evs →
  (Pipe p, Some e) ∈ evs →
  p = (-1, -1) ∧
  ∃ cl, evs = (Access (filename c) X_OK, None) :: opened (pipes_of evs) ++
              [(Pipe (-1, -1), Some e)] ++ cl ∧
        Forall is_close cl ∧ closes_of cl ≡ₚ ends (pipes_of evs).
Proof.
  intros Hcall Hlog Hin.
  destruct (run_classified _ _ _ _ Hcall) as (evs' & Ht' & Hpath).
  rewrite Hlog in Ht'. apply app_inv_head in Ht' as <-.
  path_cases Hpath.
  - by apply elem_of_nil in Hin.
  - by apply list_elem_of_singleton in Hin.
  - apply in_log in Hin as [[=]|[[q [=]]|[[= -> ->]|Hin]]];
      [|by destruct (not_setup_close _ _ _ Hcl Hin)].
    split; [done|]. exists cl.
    rewrite log_pipes. simpl (pipes_of [_]).
    rewrite (pipes_of_closes _ Hcl), !app_nil_r. done.
  - apply in_log in Hin as [[=]|[[q [=]]|[[=]|Hin]]].
    by destruct (not_setup_close _ _ _ Hcl Hin).
  - apply in_log in Hin as [[=]|[[q [=]]|[[=]|Hin]]].
    by destruct (not_setup_close _ _ _ Hcl Hin).
  - apply in_log in Hin as [[=]|[[q [=]]|[[=]|Hin]]].
    destruct (child_run _ _ _ _ _ _ _ _ Hrun Ht) as (h & _ & _ & _ & Hno & _).
    rewrite Forall_forall in Hno. by destruct (Hno _ Hin).
Qed.

(** *** The cells a call writes *)

(** [writes_within ls m]: [m] stores through the pointers of [ls] only. *)
Definition writes_within {A} (ls : list (option loc)) (m : M A) : Prop :=
  ∀ w o w' l, m w = (o, w') → Some l ∉ ls → mem w' !! l = mem w !! l.

(** [quiet m]: [m] stores nothing. *)
Definition quiet {A} (m : M A) : Prop :=
  ∀ w o w', m w = (o, w') → mem w' = mem w.

Lemma quiet_writes_within {A} ls (m : M A) : quiet m → writes_within ls m.
Proof. intros H w o w' l Hm _. by rewrite (H _ _ _ Hm). Qed.

Lemma writes_within_ret {A} ls (a : A) : writes_within ls (mret a).
Proof. by intros w o w' l [= <- <-] _. Qed.

Lemma writes_within_bind {A B} ls (m : M A) (f : A → M B) :
  writes_within ls m → (∀ a, writes_within ls (f a)) →
  writes_within ls (m ≫= f).
Proof.
  intros Hm Hf w o w' l. unfold mbind, M_bind.
  destruct (m w) as [[a|h] w1] eqn:Hw.
  - intros Hrun Hl. rewrite (Hf a _ _ _ _ Hrun Hl). by apply (Hm _ _ _ _ Hw).
  - intros [= <- <-]. by apply (Hm _ _ _ _ Hw).
Qed.

Lemma writes_within_store ls p v : p ∈ ls → writes_within ls (store p v).
Proof.
  intros Hp w o w' l. unfold store. destruct p as [l0|]; intros [= <- <-] Hl.
  - simpl. apply lookup_insert_ne. by intros ->.
  - done.
Qed.

Lemma quiet_get_errno : quiet get_errno.
Proof. by intros w o w' [= <- <-]. Qed.

Lemma quiet_set_errno e : quiet (set_errno e).
Proof. by intros w o w' [= <- <-]. Qed.

Lemma quiet_sys_access path mode : quiet (sys_access path mode).
Proof. by intros w o w' [= <- <-]. Qed.

Lemma quiet_sys_pipe fildes : quiet (sys_pipe fildes).
Proof.
  intros w o w'. unfold sys_pipe. by destruct (next_answer w); intros [= <- <-].
Qed.

Lemma quiet_sys_fork : quiet sys_fork.
Proof.
  intros w o w'. unfold sys_fork.
  by destruct (next_answer w), (side w); intros [= <- <-].
Qed.

Lemma quiet_sys_close fd : quiet (sys_close fd).
Proof. by intros w o w' [= <- <-]. Qed.

Lemma quiet_sys_dup2 oldfd newfd : quiet (sys_dup2 oldfd newfd).
Proof.
  intros w o w'. unfold sys_dup2. by destruct (next_answer w); intros [= <- <-].
Qed.

Lemma quiet_sys_chdir dir : quiet (sys_chdir dir).
Proof. by intros w o w' [= <- <-]. Qed.

Lemma quiet_sys_setsid : quiet sys_setsid.
Proof. by intros w o w' [= <- <-]. Qed.

Lemma quiet_sys_execve path args env : quiet (sys_execve path args env).
Proof.
  intros w o w'. unfold sys_execve.
  by destruct (next_answer w); intros [= <- <-].
Qed.

Lemma quiet_sys_exit {A} status : quiet (@sys_exit A status).
Proof. by intros w o w' [= <- <-]. Qed.

Create HintDb frame.

#[local] Hint Resolve quiet_get_errno quiet_set_errno quiet_sys_access
  quiet_sys_pipe quiet_sys_fork quiet_sys_close quiet_sys_dup2 quiet_sys_chdir
  quiet_sys_setsid quiet_sys_execve quiet_sys_exit : frame.

(** One step of a frame argument: split a bind, decide a test, or close
    the goal with what is known about the computation at hand. *)
Ltac frame_step :=
  first
    [ apply writes_within_ret
    | solve [auto with frame]
    | apply quiet_writes_within; solve [auto with frame]
    | apply writes_within_store; set_solver
    | apply writes_within_bind; [|intros ?]
    | match goal with
      | |- writes_within _ (if ?b then _ else _) => destruct b
      | |- writes_within _ (match ?x with _ => _ end) => destruct x
      end ].

Lemma writes_within_CheckInterrupted ls result :
  writes_within ls (CheckInterrupted result).
Proof. unfold CheckInterrupted. repeat frame_step. Qed.

Lemma writes_within_retry ls n op :
  writes_within ls op → writes_within ls (retry_interrupted n op).
Proof.
  intros Hop. induction n as [|n IH]; simpl;
    (apply writes_within_bind; [done|intros result]);
    (apply writes_within_bind;
       [apply writes_within_CheckInterrupted|intros []]);
    try done; apply writes_within_ret.
Qed.

Lemma writes_within_while ls op :
  writes_within ls op → writes_within ls (while_interrupted op).
Proof.
  intros Hop w o w' l. unfold while_interrupted.
  by apply writes_within_retry.
Qed.

Lemma writes_within_CloseIfOpen ls fd : writes_within ls (CloseIfOpen fd).
Proof. unfold CloseIfOpen. repeat frame_step. Qed.

Lemma writes_within_exit {A} ls : writes_within ls (@exit_with_errno A).
Proof. unfold exit_with_errno. repeat frame_step. Qed.

Lemma writes_within_dup2_failed ls oldfd newfd :
  writes_within ls (dup2_failed oldfd newfd).
Proof.
  unfold dup2_failed, Dup2WithInterruptedRetry.
  apply writes_within_bind; [|intros r; apply writes_within_ret].
  apply writes_within_while, quiet_writes_within, quiet_sys_dup2.
Qed.

#[local] Hint Resolve writes_within_CloseIfOpen writes_within_exit
  writes_within_dup2_failed writes_within_while quiet_writes_within : frame.

Lemma writes_within_child ls c pin pout perr :
  writes_within ls (child_branch c pin pout perr).
Proof.
  unfold child_branch, or_else, and_then. repeat frame_step.
Qed.

Lemma writes_within_open_pipes ls c pin pout perr :
  writes_within ls (open_pipes_failed c pin pout perr).
Proof.
  unfold open_pipes_failed, pipe_failed. repeat frame_step.
Qed.

Lemma writes_within_done c success pin pout perr :
  writes_within [childPid c; stdinFd c; stdoutFd c; stderrFd c]
    (done c success pin pout perr).
Proof. unfold done. repeat frame_step. Qed.

#[local] Hint Resolve writes_within_child writes_within_open_pipes
  writes_within_done : frame.


(** *** The descriptor table of the new program *)

(** What a step that succeeds does to the descriptor table. *)
Definition step_table (s : step) (t : gset Z) : gset Z :=
  match s with
  | CloseEnd fd => t ∖ {[fd]}
  | Redirect _ newfd => {[newfd]} ∪ t
  | _ => t
  end.

Fixpoint table_after (steps : list step) (t : gset Z) : gset Z :=
  match steps with
  | [] => t
  | s :: rest => table_after rest (step_table s t)
  end.

(** The standard streams the child redirects. *)
Definition redirected (c : request) : list Z :=
  wanted (redirectStdin c) STDIN_FILENO ++
  wanted (redirectStdout c) STDOUT_FILENO ++
  wanted (redirectStderr c) STDERR_FILENO.

Lemma table_after_app l1 l2 t :
  table_after (l1 ++ l2) t = table_after l2 (table_after l1 t).
Proof. revert t. induction l1 as [|s l1 IH]; intros t; simpl; [done|apply IH]. Qed.

Lemma table_after_closes l t :
  table_after (map CloseEnd l) t = t ∖ list_to_set l.
Proof.
  revert t. induction l as [|fd l IH]; intros t; simpl; [set_solver|].
  rewrite IH. set_solver.
Qed.

Lemma table_after_redirect flag oldfd newfd t :
  table_after (wanted flag (Redirect oldfd newfd)) t =
    list_to_set (wanted flag newfd) ∪ t.
Proof. unfold wanted. destruct (flag =? 0); simpl; set_solver. Qed.

Lemma table_after_setup c pin pout perr t :
  table_after (child_setup_steps c pin pout perr) t =
    ((t ∖ list_to_set (parent_side c pin pout perr)) ∪
     list_to_set (redirected c)) ∖ list_to_set (child_side c pin pout perr).
Proof.
  unfold child_setup_steps, redirected.
  rewrite !table_after_app, !table_after_closes, !table_after_redirect,
    !list_to_set_app_L.
  generalize (t ∖ list_to_set (parent_side c pin pout perr)).
  generalize (list_to_set (child_side c pin pout perr) : gset Z).
  generalize (list_to_set (wanted (redirectStdin c) STDIN_FILENO) : gset Z).
  generalize (list_to_set (wanted (redirectStdout c) STDOUT_FILENO) : gset Z).
  generalize (list_to_set (wanted (redirectStderr c) STDERR_FILENO) : gset Z).
  intros s3 s2 s1 sc t1.
  destruct (cwd c), (Z.testbit (creationFlags c) 0); simpl; set_solver.
Qed.

Lemma perform_table s w w' :
  perform s w = (Next tt, w') → fds w' = step_table s (fds w).
Proof.
  assert (Hretried : ∀ cl eff,
    (a ← attempt cl eff; or_abort a) w = (Next tt, w') →
    fds w' = eff (fds w)).
  { intros cl eff. unfold mbind, M_bind, attempt.
    destruct (skip_interrupted_table cl (script w) w) as [Hf _].
    destruct (next_answer _) as [e|]; simpl; [done|].
    intros [= <-]. simpl. by rewrite Hf. }
  destruct s as [fd|oldfd newfd|dir| |path args env]; simpl.
  - by intros [= <-].
  - apply Hretried.
  - apply Hretried.
  - apply Hretried.
  - unfold sys_exit. by destruct (next_answer w).
Qed.

Lemma perform_exec s w path args env w' :
  perform s w = (Halt (Execed path args env), w') →
  s = ReplaceImage path args env ∧ fds w' = fds w.
Proof.
  assert (Hretried : ∀ cl eff,
    (a ← attempt cl eff; or_abort a) w = (Halt (Execed path args env), w') →
    False).
  { intros cl eff. unfold mbind, M_bind, attempt.
    by destruct (next_answer _) as [e|]. }
  destruct s as [fd|oldfd newfd|dir| |p a e]; simpl.
  - done.
  - by intros ?%Hretried.
  - by intros ?%Hretried.
  - by intros ?%Hretried.
  - unfold sys_exit. destruct (next_answer w); [done|]. by intros [= -> -> -> <-].
Qed.

(** When the image is replaced, the table is what the steps before
    made of it. *)
Lemma run_steps_exec_table pre last w path args env w' :
  (∀ p a e, ReplaceImage p a e ∉ pre) →
  run_steps (pre ++ [last]) w = (Halt (Execed path args env), w') →
  fds w' = table_after pre (fds w).
Proof.
  revert w. induction pre as [|s pre IH]; intros w Hpre; simpl;
    unfold mbind at 1, M_bind at 1.
  - destruct (perform last w) as [[[]|h] w1] eqn:Hs; [done|].
    intros [= -> <-]. by destruct (perform_exec _ _ _ _ _ _ Hs).
  - destruct (perform s w) as [[[]|h] w1] eqn:Hs.
    + intros Hrun. rewrite <- (perform_table _ _ _ Hs). apply IH; [|done].
      intros p a e Hin. apply (Hpre p a e). apply elem_of_cons. by right.
    + intros [= -> <-]. destruct (perform_exec _ _ _ _ _ _ Hs) as [-> _].
      destruct (Hpre path args env). apply elem_of_cons. by left.
Qed.

(** The first pipe takes the lowest free descriptor for its read end. *)
Lemma first_pipe_lowest c w pin pout perr w' :
  redirectStdin c ≠ 0 →
  open_pipes_failed c (-1, -1) (-1, -1) (-1, -1) w =
    (Next (false, (pin, pout, perr)), w') →
  pin.1 = lowest_free (fds w).
Proof.
  intros Hflag%Z.eqb_neq. unfold open_pipes_failed.
  unfold mbind at 1, M_bind at 1. unfold pipe_failed at 1. rewrite Hflag.
  unfold mbind at 1, M_bind at 1. unfold sys_pipe.
  destruct (next_answer w); simpl; [done|].
  set (w1 := answered _ w _ _).
  destruct (pipe_failed_attempt (redirectStdout c) w1)
    as (b2 & p2 & w2 & evs2 & Heq2 & _).
  rewrite (bind_next _ _ _ _ _ Heq2). cbv beta iota. destruct b2; [done|].
  destruct (pipe_failed_attempt (redirectStderr c) w2)
    as (b3 & p3 & w3 & evs3 & Heq3 & _).
  rewrite (bind_next _ _ _ _ _ Heq3). cbv beta iota.
  by intros [= _ <- _ _ _].
Qed.

Lemma lowest_free_zero (s : gset Z) : 0 ∉ s → lowest_free s = 0.
Proof.
  intros H. unfold lowest_free. destruct (size s); simpl; [done|].
  by destruct (decide (0 ∈ s)).
Qed.

(** The state in which the child starts on its steps when the call ends
    in the new program. *)
Lemma child_entry c w path args env w' :
  ForkAndExecProcess c w = (Halt (Execed path args env), w') →
  ∃ pin pout perr w1 w2 w3,
    fds w1 = fds w ∧
    open_pipes_failed c (-1, -1) (-1, -1) (-1, -1) w1 =
      (Next (false, (pin, pout, perr)), w2) ∧
    pipes_state (fds w) pin pout perr (fds w2) ∧
    arrays_match c pin pout perr ∧
    fds w3 = fds w2 ∧
    run_steps (child_steps c pin pout perr) w3 =
      (Halt (Execed path args env), w').
Proof.
  intros Hcall.
  destruct (run_classified _ _ _ _ Hcall) as (evs & _ & Hpath).
  assert (null_argument c = false ∧ bad_redirect c = false) as [Hnull Hbad].
  { remember (Halt (Execed path args env)) as o eqn:Heqo.
    path_cases Hpath; subst; try done.
    destruct (decide (is_Some (childPid c) ∧ is_Some (stdinFd c) ∧
                      is_Some (stdoutFd c) ∧ is_Some (stderrFd c))) as [Hdec|Hdec].
    - by destruct (Hwr Hdec).
    - by specialize (Hnw Hdec). }
  clear Hpath evs.
  pose proof (null_argument_writable c Hnull) as Hw.
  revert Hcall. unfold ForkAndExecProcess. rewrite Hnull, Hbad.
  unfold mbind at 1, M_bind at 1. unfold sys_access.
  destruct (next_answer w) as [e|] eqn:Ha; cbn [ret_of Z.eqb negb].
  { intros Hdone.
    destruct (done_failure c (-1, -1) (-1, -1) (-1, -1)
                (answered (Access (filename c) X_OK) w (fds w) (pid w)) Hw)
      as (w2 & Heq & _).
    discriminate (eq_trans (eq_sym Heq) Hdone). }
  set (w1 := answered (Access (filename c) X_OK) w (fds w) (pid w)).
  assert (Hf1 : fds w1 = fds w) by done.
  clearbody w1.
  destruct (open_pipes_spec c w1)
    as (failed & pin & pout & perr & w2 & pevs & Heq & _ & _ & _ & _
        & Hst & _ & Hok & _).
  rewrite (bind_next _ _ _ _ _ Heq). cbv beta iota. rewrite Hf1 in Hst.
  destruct failed.
  { intros Hdone.
    destruct (done_failure c pin pout perr w2 Hw) as (w3 & Heq' & _).
    discriminate (eq_trans (eq_sym Heq') Hdone). }
  destruct (Hok eq_refl) as (_ & _ & Hlin & Hlout & Hlerr).
  assert (Harr : arrays_match c pin pout perr).
  { destruct Hst as (Hall & _). rewrite !Forall_cons in Hall.
    destruct Hall as (H1 & H2 & H3 & _).
    split; [|split]; by apply live_wanted_selects. }
  unfold mbind at 1, M_bind at 1. unfold sys_fork.
  destruct (next_answer w2) as [e|] eqn:Hfork.
  { intros Hdone.
    destruct (done_failure c pin pout perr
                (answered Fork w2 (fds w2) (pid w2)) Hw) as (w3 & Heq' & _).
    discriminate (eq_trans (eq_sym Heq') Hdone). }
  destruct (side w2) as [child|self] eqn:Hside; cbn [Z.eqb]; cbv iota.
  - destruct Hw as ([lp Hlp] & [li Hli] & [lo Hlo] & [le Hle]).
    rewrite Hlp, Hli, Hlo, Hle. do 4 prim_step.
    match goal with |- done _ _ _ _ _ ?w = _ → _ => set (w4 := w) end.
    intros Hdone.
    destruct (done_success c pin pout perr w4) as (w5 & Heq' & _).
    discriminate (eq_trans (eq_sym Heq') Hdone).
  - rewrite (child_branch_steps c pin pout perr Harr).
    intros Hrun.
    destruct (then_return_inv _ _ _ _ _ Hrun) as [[_ [=]]|(h & Hr & [= <-])].
    by exists pin, pout, perr, w1, w2, (answered Fork w2 (fds w2) self).
Qed.

(** The table of the new program in terms of the caller's. *)
Lemma exec_table c w path args env w' :
  ForkAndExecProcess c w = (Halt (Execed path args env), w') →
  ∃ pin pout perr,
    (redirectStdin c ≠ 0 → pin.1 = lowest_free (fds w)) ∧
    child_side c pin pout perr ++ parent_side c pin pout perr ≡ₚ
      ends (live pin ++ live pout ++ live perr) ∧
    Forall (λ fd, fd ∉ fds w) (ends (live pin ++ live pout ++ live perr)) ∧
    fds w' =
      (((fds w ∪ list_to_set (ends (live pin ++ live pout ++ live perr)))
          ∖ list_to_set (parent_side c pin pout perr)) ∪
       list_to_set (redirected c)) ∖ list_to_set (child_side c pin pout perr).
Proof.
  intros Hcall.
  destruct (child_entry _ _ _ _ _ _ Hcall)
    as (pin & pout & perr & w1 & w2 & w3 & Hf1 & Hpipes & Hst & Harr & Hf3
        & Hrun).
  exists pin, pout, perr. split; [|split; [|split]].
  - intros Hflag. rewrite <- Hf1. by eapply first_pipe_lowest.
  - pose proof (sides_ends _ _ _ _ _ Hst) as Hperm.
    destruct Harr as ((Hi1 & Hi2) & (Ho1 & Ho2) & (He1 & He2)).
    by rewrite (selects_open_ones3 _ _ _ _ _ _ Hi1 Ho2 He2),
      (selects_open_ones3 _ _ _ _ _ _ Hi2 Ho1 He1) in Hperm.
  - by destruct Hst as (_ & _ & Hfresh & _).
  - rewrite child_steps_split in Hrun.
    rewrite (run_steps_exec_table _ _ _ _ _ _ _
               (setup_steps_no_exec c pin pout perr) Hrun).
    rewrite table_after_setup, Hf3.
    by destruct Hst as (_ & _ & _ & ->).
Qed.



(** When descriptor 0 is not open in the caller and standard input is to
    be redirected, the read end of the stdin pipe is descriptor 0 itself;
    the child closes it after the [dup2], and the new program starts with
    its standard input closed. *)
Theorem closed_stdin_is_closed_in_child c w path args env w' :
  0 ∉ fds w → redirectStdin c ≠ 0 →
  ForkAndExecProcess c w = (Halt (Execed path args env), w') →
  0 ∉ fds w'.
Proof.
  intros H0 Hflag Hcall.
  destruct (exec_table _ _ _ _ _ _ Hcall)
    as (pin & pout & perr & Hpin & _ & _ & ->).
  rewrite (lowest_free_zero _ H0) in Hpin by done.
  rewrite elem_of_difference, elem_of_list_to_set.
  intros [_ Hnot]. apply Hnot.
  unfold child_side, wanted. apply Z.eqb_neq in Hflag. rewrite Hflag.
  rewrite (Hpin ltac:(by apply Z.eqb_neq)). apply elem_of_cons. by left.
Qed.

End Platform.

(** ** The properties at work on a Linux system

    [EINVAL] is 22, [EINTR] 4, [EXIT_FAILURE] 1 and [X_OK] 1 there. *)

Notation linux_spawn := (ForkAndExecProcess 22 4 1 1) (only parsing).

(** Standard streams open, out cells at addresses 1 to 4. *)
Definition spawn_cat (rin rout rerr flags : Z) (dir : option string) : request :=
  Request (Some "/bin/cat") (Some ["cat"]) (Some []) dir rin rout rerr flags
          (Some 1%positive) (Some 2%positive) (Some 3%positive) (Some 4%positive).

Definition caller (sd : fork_side) (answers : list answer) : world :=
  World 0 {[0; 1; 2]} ∅ 100%positive sd answers [].

(** A successful spawn with stdin and stderr redirected, both [close]
    calls of the parent failing. *)
Definition world_parent_ok : world :=
  caller (InParent 101) [None; None; None; None; Some 5%positive; Some 9%positive].

Definition log_parent_ok : list event :=
  [(Access (Some "/bin/cat") 1, None); (Pipe (3, 4), None); (Pipe (5, 6), None);
   (Fork, None); (Close 3, Some 5%positive); (Close 6, Some 9%positive)].

(** The stdout pipe is refused after the stdin pipe was opened; the first
    [close] of the cleanup fails. *)
Definition world_pipe_refused : world :=
  caller (InParent 101)
         [None; None; Some 24%positive; Some 5%positive; None; Some 9%positive].

Definition log_pipe_refused : list event :=
  [(Access (Some "/bin/cat") 1, None); (Pipe (3, 4), None);
   (Pipe (-1, -1), Some 24%positive); (Close 3, Some 5%positive);
   (Close 4, None)].

(** The executable cannot be run. *)
Definition world_no_access : world := caller (InParent 101) [Some 13%positive].

(** A child whose [dup2] and [chdir] are interrupted and whose [chdir]
    then fails. *)
Definition world_child_fails : world :=
  caller (InChild 101)
         [None; None; None; Some 5%positive; Some 4%positive; Some 4%positive;
          None; None; Some 4%positive; Some 2%positive].

Definition log_child_fails : list event :=
  [(Access (Some "/bin/cat") 1, None); (Pipe (3, 4), None); (Fork, None);
   (Close 3, Some 5%positive); (Dup2 4 1, Some 4%positive);
   (Dup2 4 1, Some 4%positive); (Dup2 4 1, None); (Close 4, None);
   (Chdir "/tmp", Some 4%positive); (Chdir "/tmp", Some 2%positive);
   (ExitCall 2, None)].

(** A child that gets through to [execve], interruptions included. *)
Definition world_child_execs : world :=
  caller (InChild 101)
         [None; None; None; Some 5%positive; Some 4%positive; None; None;
          Some 4%positive; None; Some 4%positive; None].

Definition log_child_execs : list event :=
  [(Access (Some "/bin/cat") 1, None); (Pipe (3, 4), None); (Fork, None);
   (Close 3, Some 5%positive); (Dup2 4 1, Some 4%positive); (Dup2 4 1, None);
   (Close 4, None); (Chdir "/tmp", Some 4%positive); (Chdir "/tmp", None);
   (Setsid, Some 4%positive); (Setsid, None);
   (Execve (Some "/bin/cat") (Some ["cat"]) (Some []), None)].

Ltac by_evaluation := vm_compute; reflexivity.

Ltac in_list :=
  repeat first [apply list_elem_of_here | apply list_elem_of_further].

Ltac writable := repeat split; by eexists.

Lemma run_pair c w : linux_spawn c w = ((linux_spawn c w).1, (linux_spawn c w).2).
Proof. apply surjective_pairing. Qed.

Lemma C1_success_handles_witness :
  let c := spawn_cat 1 0 1 0 None in
  let w' := (linux_spawn c world_parent_ok).2 in
  linux_spawn c world_parent_ok = (Next 0, w') ∧
  trace w' = trace world_parent_ok ++ log_parent_ok ∧
  NoDup [childPid c; stdinFd c; stdoutFd c; stderrFd c] ∧
  ∃ pin pout perr child,
    side world_parent_ok = InParent child ∧
    pipes_of log_parent_ok = requested_pipes c pin pout perr ∧
    load (stdinFd c) w' = Some (handle (redirectStdin c) pin.2) ∧
    load (stdoutFd c) w' = Some (handle (redirectStdout c) pout.1) ∧
    closes_of log_parent_ok = child_side c pin pout perr ∧
    fds w' = fds world_parent_ok ∪ list_to_set (parent_side c pin pout perr).
Proof.
  intros c w'.
  assert (Hrun : linux_spawn c world_parent_ok = (Next 0, w')) by by_evaluation.
  assert (Hlog : trace w' = trace world_parent_ok ++ log_parent_ok)
    by by_evaluation.
  assert (Hnd : NoDup [childPid c; stdinFd c; stdoutFd c; stderrFd c])
    by (apply (bool_decide_unpack _); by_evaluation).
  refine (conj Hrun (conj Hlog (conj Hnd _))).
  destruct (C1_success_handles 22 4 1 1 c world_parent_ok w' log_parent_ok
              Hrun Hlog Hnd)
    as (pin & pout & perr & child & Hside & Hpipes & _ & Hi & Ho & _ & _
        & Hcl & Hfds & _).
  exists pin, pout, perr, child.
  exact (conj Hside (conj Hpipes (conj Hi (conj Ho (conj Hcl Hfds))))).
Defined.

Lemma C2_failure_releases_everything_witness :
  let c := spawn_cat 1 1 0 0 None in
  let w' := (linux_spawn c world_pipe_refused).2 in
  trace w' = trace world_pipe_refused ++ log_pipe_refused ∧
  outputs_writable c ∧
  sync_failure 22 c log_pipe_refused PipeAllocation 24 ∧
  (linux_spawn c world_pipe_refused).1 = Next (-1) ∧
  fds w' = fds world_pipe_refused ∧
  (∀ fd, fd ∈ ends (pipes_of log_pipe_refused) →
         fd ∈ closes_of log_pipe_refused) ∧
  load (childPid c) w' = Some (-1) ∧ load (stdinFd c) w' = Some (-1).
Proof.
  intros c w'.
  assert (Hlog : trace w' = trace world_pipe_refused ++ log_pipe_refused)
    by by_evaluation.
  assert (Hw : outputs_writable c) by writable.
  assert (Hfail : sync_failure 22 c log_pipe_refused PipeAllocation 24)
    by (apply (fails_pipe 22 c _ (-1, -1) 24%positive); in_list).
  refine (conj Hlog (conj Hw (conj Hfail _))).
  destruct (C2_failure_releases_everything 22 4 1 1 c world_pipe_refused
              _ w' log_pipe_refused PipeAllocation 24
              (run_pair c world_pipe_refused) Hlog Hw Hfail)
    as (Ho & Hf & Hcl & Hp & Hi & _).
  exact (conj Ho (conj Hf (conj Hcl (conj Hp Hi)))).
Defined.

Lemma C3_pipe_failure_aborts_witness :
  let c := spawn_cat 1 1 0 0 None in
  let w' := (linux_spawn c world_pipe_refused).2 in
  trace w' = trace world_pipe_refused ++ log_pipe_refused ∧
  (Pipe (-1, -1), Some 24%positive) ∈ log_pipe_refused ∧
  (linux_spawn c world_pipe_refused).1 = Next (-1) ∧
  errno w' = 24 ∧
  (∀ fd, fd ∈ ends (pipes_of log_pipe_refused) →
         fd ∈ closes_of log_pipe_refused) ∧
  fds w' = fds world_pipe_refused ∧
  (∀ a, (Fork, a) ∉ log_pipe_refused).
Proof.
  intros c w'.
  assert (Hlog : trace w' = trace world_pipe_refused ++ log_pipe_refused)
    by by_evaluation.
  assert (Hin : (Pipe (-1, -1), Some 24%positive) ∈ log_pipe_refused) by in_list.
  refine (conj Hlog (conj Hin _)).
  destruct (C3_pipe_failure_aborts 22 4 1 1 c world_pipe_refused
              _ w' log_pipe_refused (-1, -1) 24%positive
              (run_pair c world_pipe_refused) Hlog Hin)
    as (Ho & He & Hcl & Hf & Hfork & _).
  exact (conj Ho (conj He (conj Hcl (conj Hf Hfork)))).
Defined.

Lemma C4_invalid_argument_touches_nothing_witness :
  let c := spawn_cat 2 0 0 0 None in
  let w' := (linux_spawn c world_parent_ok).2 in
  rejected_input c ∧ outputs_writable c ∧
  trace w' = trace world_parent_ok ∧ fds w' = fds world_parent_ok ∧
  errno w' = 22 ∧ (linux_spawn c world_parent_ok).1 = Next (-1).
Proof.
  intros c w'.
  assert (Hrej : rejected_input c).
  { right. right. right. left. intros [H|H]; discriminate H. }
  assert (Hw : outputs_writable c) by writable.
  refine (conj Hrej (conj Hw _)).
  destruct (C4_invalid_argument_touches_nothing 22 4 1 1 c world_parent_ok
              _ w' Hrej (run_pair c world_parent_ok))
    as (Ht & Hf & He & Ho).
  exact (conj Ht (conj Hf (conj He (Ho Hw)))).
Defined.

Lemma C5_preflight_access_witness :
  let c := spawn_cat 1 1 1 0 None in
  let w' := (linux_spawn c world_no_access).2 in
  let log := [(Access (Some "/bin/cat") 1, Some 13%positive)] in
  null_argument c = false ∧ bad_redirect c = false ∧
  trace w' = trace world_no_access ++ log ∧
  (linux_spawn c world_no_access).1 = Next (-1) ∧ errno w' = 13 ∧
  fds w' = fds world_no_access.
Proof.
  intros c w' log.
  assert (Hn : null_argument c = false) by reflexivity.
  assert (Hb : bad_redirect c = false) by reflexivity.
  assert (Hlog : trace w' = trace world_no_access ++ log) by by_evaluation.
  refine (conj Hn (conj Hb (conj Hlog _))).
  destruct (C5_preflight_access 22 4 1 1 c world_no_access _ w' log
              Hn Hb (run_pair c world_no_access) Hlog)
    as (_ & Hfail).
  destruct (Hfail (Some "/bin/cat") 1 13%positive) as (Ho & He & Hf & _);
    [in_list|].
  exact (conj Ho (conj He Hf)).
Defined.

Lemma C6_errno_is_originating_error_witness :
  let c := spawn_cat 1 1 0 0 None in
  let w' := (linux_spawn c world_pipe_refused).2 in
  trace w' = trace world_pipe_refused ++ log_pipe_refused ∧
  outputs_writable c ∧
  sync_failure 22 c log_pipe_refused PipeAllocation 24 ∧
  (Close 3, Some 5%positive) ∈ log_pipe_refused ∧
  (linux_spawn c world_pipe_refused).1 = Next (-1) ∧ errno w' = 24.
Proof.
  intros c w'.
  assert (Hlog : trace w' = trace world_pipe_refused ++ log_pipe_refused)
    by by_evaluation.
  assert (Hw : outputs_writable c) by writable.
  assert (Hfail : sync_failure 22 c log_pipe_refused PipeAllocation 24)
    by (apply (fails_pipe 22 c _ (-1, -1) 24%positive); in_list).
  assert (Hclose : (Close 3, Some 5%positive) ∈ log_pipe_refused) by in_list.
  refine (conj Hlog (conj Hw (conj Hfail (conj Hclose _)))).
  exact (C6_errno_is_originating_error 22 4 1 1 c world_pipe_refused
           _ w' log_pipe_refused PipeAllocation 24
           (run_pair c world_pipe_refused) Hlog Hw Hfail).
Defined.

Lemma C7_child_steps_in_order_witness :
  let c := spawn_cat 0 1 0 1 (Some "/tmp") in
  let w' := (linux_spawn c world_child_fails).2 in
  trace w' = trace world_child_fails ++ log_child_fails ∧
  side world_child_fails = InChild 101 ∧
  (Fork, None) ∈ log_child_fails ∧
  ∃ pin pout perr w1 cevs h,
    log_child_fails =
      (Access (filename c) 1, None) ::
      opened (requested_pipes c pin pout perr) ++ [(Fork, None)] ++ cevs ∧
    run_steps 4 (child_steps c pin pout perr) w1 = (Halt h, w') ∧
    (linux_spawn c world_child_fails).1 = Halt h.
Proof.
  intros c w'.
  assert (Hlog : trace w' = trace world_child_fails ++ log_child_fails)
    by by_evaluation.
  assert (Hside : side world_child_fails = InChild 101) by reflexivity.
  assert (Hin : (Fork, None) ∈ log_child_fails) by in_list.
  refine (conj Hlog (conj Hside (conj Hin _))).
  destruct (C7_child_steps_in_order 22 4 1 1 c world_child_fails
              _ w' log_child_fails 101%positive
              (run_pair c world_child_fails) Hlog Hside Hin)
    as (pin & pout & perr & w1 & cevs & h & Hevs & _ & Hsteps & Ho & _).
  exists pin, pout, perr, w1, cevs, h.
  exact (conj Hevs (conj Hsteps Ho)).
Defined.

Lemma C8_each_descriptor_closed_once_witness :
  let c := spawn_cat 0 1 0 1 (Some "/tmp") in
  let w' := (linux_spawn c world_child_execs).2 in
  trace w' = trace world_child_execs ++ log_child_execs ∧
  NoDup (closes_of log_child_execs) ∧
  (∀ fd, fd ∈ closes_of log_child_execs →
         fd ∈ ends (pipes_of log_child_execs) ∧ 0 ≤ fd).
Proof.
  intros c w'.
  assert (Hlog : trace w' = trace world_child_execs ++ log_child_execs)
    by by_evaluation.
  refine (conj Hlog _).
  destruct (C8_each_descriptor_closed_once 22 4 1 1 c world_child_execs
              _ w' log_child_execs (run_pair c world_child_execs) Hlog)
    as (Hnd & Hsub & _).
  exact (conj Hnd Hsub).
Defined.

Lemma C9_only_session_bit_witness :
  let c := spawn_cat 0 1 0 1 (Some "/tmp") in
  let w' := (linux_spawn c world_child_execs).2 in
  Z.testbit 7 0 = Z.testbit (creationFlags c) 0 ∧
  trace w' = trace world_child_execs ++ log_child_execs ∧
  (linux_spawn c world_child_execs).1 =
    Halt (Execed (filename c) (argv c) (envp c)) ∧
  linux_spawn (with_flags c 7) world_child_execs =
    linux_spawn c world_child_execs ∧
  ∃ a, (Setsid, a) ∈ log_child_execs.
Proof.
  intros c w'.
  assert (Hbit : Z.testbit 7 0 = Z.testbit (creationFlags c) 0) by reflexivity.
  assert (Hlog : trace w' = trace world_child_execs ++ log_child_execs)
    by by_evaluation.
  assert (Ho : (linux_spawn c world_child_execs).1 =
               Halt (Execed (filename c) (argv c) (envp c)))
    by by_evaluation.
  refine (conj Hbit (conj Hlog (conj Ho _))).
  destruct (C9_only_session_bit 22 4 1 1 c world_child_execs) as [Hsame Hread].
  split; [exact (Hsame 7 Hbit)|].
  destruct (Hread _ w' log_child_execs (run_pair c world_child_execs) Hlog)
    as [_ Hsid].
  exact (Hsid eq_refl Ho).
Defined.

(** C10: with [childPid] null and all else in order, the call detects the
    null pointer, sets EINVAL, and then on its failure path stores -1
    through [stdinFd], [stdoutFd] and [stderrFd] and finally through the
    null [childPid]: it does not return -1. *)
Theorem C10_null_out_pointer_is_stored_through :
  let c := Request (Some "/bin/cat") (Some ["cat"]) (Some []) None 0 0 0 0
                   None (Some 2%positive) (Some 3%positive) (Some 4%positive) in
  let r := linux_spawn c world_parent_ok in
  null_argument c = true ∧
  r.1 = Halt NullStore ∧ errno r.2 = 22 ∧
  load (stdinFd c) r.2 = Some (-1) ∧ load (stdoutFd c) r.2 = Some (-1) ∧
  load (stderrFd c) r.2 = Some (-1).
Proof. intros c r. split_and!; by_evaluation. Qed.

(** ** The further properties at work *)

(** A caller whose standard input is closed. *)
Definition world_stdin_closed : world :=
  World 0 {[1; 2]} ∅ 100%positive (InChild 101) [] [].

(** Two interrupted [dup2] calls, then a success. *)
Definition world_interrupted : world :=
  caller (InChild 101) [Some 4%positive; Some 4%positive; None; Some 9%positive].

Ltac decided := apply (bool_decide_unpack _); by_evaluation.

Lemma Dup2WithInterruptedRetry_retries_witness :
  0 ≤ 1 ∧
  script world_interrupted =
    replicate 2 (Some 4%positive) ++ None :: [Some 9%positive] ∧
  (None : answer) ≠ Some 4%positive ∧
  ∃ w', Dup2WithInterruptedRetry 4 7 1 world_interrupted = (Next 1, w') ∧
        trace w' = trace world_interrupted ++
                   replicate 2 (Dup2 7 1, Some 4%positive) ++ [(Dup2 7 1, None)] ∧
        script w' = [Some 9%positive] ∧
        fds w' = {[1]} ∪ fds world_interrupted ∧
        mem w' = mem world_interrupted.
Proof.
  assert (H0 : 0 ≤ 1) by lia.
  assert (Hs : script world_interrupted =
               replicate 2 (Some 4%positive) ++ None :: [Some 9%positive])
    by reflexivity.
  assert (Ha : (None : answer) ≠ Some 4%positive) by discriminate.
  refine (conj H0 (conj Hs (conj Ha _))).
  exact (Dup2WithInterruptedRetry_retries 4 7 1 2 None [Some 9%positive]
           world_interrupted H0 Hs Ha).
Defined.

Lemma Dup2WithInterruptedRetry_settles_witness :
  0 ≤ 1 ∧
  ((Dup2WithInterruptedRetry 4 7 1 world_interrupted).1 = Next 1 ∨
   ((Dup2WithInterruptedRetry 4 7 1 world_interrupted).1 = Next (-1) ∧
    ∃ e, errno (Dup2WithInterruptedRetry 4 7 1 world_interrupted).2 = Z.pos e ∧
         e ≠ 4%positive)).
Proof.
  assert (H0 : 0 ≤ 1) by lia.
  split; [exact H0|].
  exact (Dup2WithInterruptedRetry_settles 4 7 1 world_interrupted _ _ H0
           (surjective_pairing _)).
Defined.

Lemma returns_zero_iff_child_created_witness :
  let c := spawn_cat 1 0 1 0 None in
  let w' := (linux_spawn c world_parent_ok).2 in
  linux_spawn c world_parent_ok = (Next 0, w') ∧
  trace w' = trace world_parent_ok ++ log_parent_ok ∧
  (0 = 0 ∨ 0 = -1) ∧ (0 = 0 ↔ (Fork, None) ∈ log_parent_ok).
Proof.
  intros c w'.
  assert (Hrun : linux_spawn c world_parent_ok = (Next 0, w')) by by_evaluation.
  assert (Hlog : trace w' = trace world_parent_ok ++ log_parent_ok)
    by by_evaluation.
  refine (conj Hrun (conj Hlog _)).
  exact (returns_zero_iff_child_created 22 4 1 1 c world_parent_ok 0 w'
           log_parent_ok Hrun Hlog).
Defined.

Lemma returning_call_spares_caller_witness :
  let c := spawn_cat 1 1 0 0 None in
  let w' := (linux_spawn c world_pipe_refused).2 in
  linux_spawn c world_pipe_refused = (Next (-1), w') ∧
  trace w' = trace world_pipe_refused ++ log_pipe_refused ∧
  Forall (λ ev : event, caller_call ev.1) log_pipe_refused ∧
  fds world_pipe_refused ⊆ fds w'.
Proof.
  intros c w'.
  assert (Hrun : linux_spawn c world_pipe_refused = (Next (-1), w'))
    by by_evaluation.
  assert (Hlog : trace w' = trace world_pipe_refused ++ log_pipe_refused)
    by by_evaluation.
  refine (conj Hrun (conj Hlog _)).
  exact (returning_call_spares_caller 22 4 1 1 c world_pipe_refused (-1) w'
           log_pipe_refused Hrun Hlog).
Defined.

Lemma child_never_stores_witness :
  let c := spawn_cat 0 1 0 1 (Some "/tmp") in
  let w' := (linux_spawn c world_child_fails).2 in
  linux_spawn c world_child_fails = (Halt (Exited 2), w') ∧
  Exited 2 ≠ NullStore ∧
  (∃ self, side world_child_fails = InChild self) ∧
  mem w' = mem world_child_fails.
Proof.
  intros c w'.
  assert (Hrun : linux_spawn c world_child_fails = (Halt (Exited 2), w'))
    by by_evaluation.
  assert (Hh : Exited 2 ≠ NullStore) by discriminate.
  refine (conj Hrun (conj Hh _)).
  exact (child_never_stores 22 4 1 1 c world_child_fails (Exited 2) w' Hrun Hh).
Defined.

Lemma no_redirection_only_forks_witness :
  let c := spawn_cat 0 0 0 0 None in
  let w' := (linux_spawn c world_parent_ok).2 in
  let log := [(Access (filename c) 1, None); (Fork, None)] in
  redirectStdin c = 0 ∧ redirectStdout c = 0 ∧ redirectStderr c = 0 ∧
  linux_spawn c world_parent_ok = (Next 0, w') ∧
  trace w' = trace world_parent_ok ++ log ∧
  log = [(Access (filename c) 1, None); (Fork, None)] ∧
  fds w' = fds world_parent_ok.
Proof.
  intros c w' log.
  assert (Hrun : linux_spawn c world_parent_ok = (Next 0, w')) by by_evaluation.
  assert (Hlog : trace w' = trace world_parent_ok ++ log) by by_evaluation.
  refine (conj eq_refl (conj eq_refl (conj eq_refl (conj Hrun (conj Hlog _))))).
  exact (no_redirection_only_forks 22 4 1 1 c world_parent_ok w' log
           eq_refl eq_refl eq_refl Hrun Hlog).
Defined.

Lemma success_grows_table_by_flags_witness :
  let c := spawn_cat 1 0 1 0 None in
  let w' := (linux_spawn c world_parent_ok).2 in
  linux_spawn c world_parent_ok = (Next 0, w') ∧
  fds world_parent_ok ⊆ fds w' ∧
  size (fds w' ∖ fds world_parent_ok) = flags_set c.
Proof.
  intros c w'.
  assert (Hrun : linux_spawn c world_parent_ok = (Next 0, w')) by by_evaluation.
  refine (conj Hrun _).
  exact (success_grows_table_by_flags 22 4 1 1 c world_parent_ok w' Hrun).
Defined.

Lemma refused_pipe_ends_setup_witness :
  let c := spawn_cat 1 1 0 0 None in
  let w' := (linux_spawn c world_pipe_refused).2 in
  trace w' = trace world_pipe_refused ++ log_pipe_refused ∧
  (Pipe (-1, -1), Some 24%positive) ∈ log_pipe_refused ∧
  ∃ cl, log_pipe_refused =
          (Access (filename c) 1, None) :: opened (pipes_of log_pipe_refused) ++
          [(Pipe (-1, -1), Some 24%positive)] ++ cl ∧
        Forall is_close cl ∧
        closes_of cl ≡ₚ ends (pipes_of log_pipe_refused).
Proof.
  intros c w'.
  assert (Hlog : trace w' = trace world_pipe_refused ++ log_pipe_refused)
    by by_evaluation.
  assert (Hin : (Pipe (-1, -1), Some 24%positive) ∈ log_pipe_refused) by in_list.
  refine (conj Hlog (conj Hin _)).
  exact (proj2 (refused_pipe_ends_setup 22 4 1 1 c world_pipe_refused _ w'
                  log_pipe_refused (-1, -1) 24%positive
                  (run_pair c world_pipe_refused) Hlog Hin)).
Defined.



Lemma closed_stdin_is_closed_in_child_witness :
  let c := spawn_cat 1 0 0 0 None in
  let w' := (linux_spawn c world_stdin_closed).2 in
  (0 ∉ fds world_stdin_closed) ∧ redirectStdin c ≠ 0 ∧
  linux_spawn c world_stdin_closed =
    (Halt (Execed (filename c) (argv c) (envp c)), w') ∧
  0 ∉ fds w'.
Proof.
  intros c w'.
  assert (H0 : 0 ∉ fds world_stdin_closed) by decided.
  assert (Hflag : redirectStdin c ≠ 0) by discriminate.
  assert (Hrun : linux_spawn c world_stdin_closed =
                 (Halt (Execed (filename c) (argv c) (envp c)), w'))
    by by_evaluation.
  refine (conj H0 (conj Hflag (conj Hrun _))).
  exact (closed_stdin_is_closed_in_child 22 4 1 1 c world_stdin_closed _ _ _ w'
           H0 Hflag Hrun).
Defined.
